(** * External-store adapters of the custom hooks library

    A shallow embedding of the hooks that expose externally mutated values
    (pointer position, viewport size, persisted key/value) to React, and the
    properties of their subscribe / getSnapshot / notify protocol.

    - [MouseStore]   : [createMousePositionStore] of Window/useMousePosition.ts
    - [WindowSize]   : both [useWindowSize] hooks (store-based and effect-based)
    - [LocalStorage] : both [useLocalStorageState] hooks
    - [MousePositionEffect] : the effect-based [useMousePosition]
    - [IntersectionObserver] : [useIntersectionObserver]
    - [MediaQuery]   : [useMediaQuery]

    JavaScript objects and arrays are kept in explicit heaps so that reference
    identity ([===], [Object.is]) and aliasing are visible: a reference is an
    address, a fresh literal allocates, [Array.prototype.push] updates an
    array in place and [Array.prototype.filter] allocates a new one. *)

From Stdlib Require Import Ascii.
From stdpp Require Import base numbers list strings gmap.

Set Default Proof Using "Type".

(** ** The singleton mouse-position store *)

Module MouseStore.

(** A listener is a function object; [l !== listener] compares references,
    so a listener is identified by the address of its function object. *)
Definition Listener := nat.

(** [interface MousePosition { x: number; y: number }].  Pointer coordinates
    are integral pixel counts here. *)
Record MousePosition := { x : Z; y : Z }.

(** The part of a [MouseEvent] that [handleMouseMove] reads. *)
Record MouseEvent := { clientX : Z; clientY : Z }.

(** What a callback may do with the store while it runs: the store exports
    [subscribe] and [getSnapshot], and [subscribe] hands out unsubscribe
    closures.  The closure returned by [subscribe(listener)] captures only
    [listener], so calling it is described by that listener. *)
Inductive Call :=
  | Subscribe (l : Listener)
  | Unsubscribe (l : Listener)
  | GetSnapshot.

(** Ghost history: which callbacks were invoked, what they did with the
    store from inside the callback, and which snapshot reference they saw. *)
Inductive Obs :=
  | Invoked (l : Listener)
  | Did (c : Call)
  | Saw (r : nat).

(** The closure state of [createMousePositionStore]:
    - [arrays]: the heap of array objects, by address;
    - [listeners]: the variable [listeners], holding an array address;
    - [objs]: the heap of position objects, by address;
    - [currentPosition]: the variable [currentPosition], an object address;
    - [trace]: the ghost history. *)
Record Store := mkStore {
  arrays : list (list Listener);
  listeners : nat;
  objs : list MousePosition;
  currentPosition : nat;
  trace : list Obs
}.

(** [let listeners = []; let currentPosition = { x: 0, y: 0 }]. *)
Definition createMousePositionStore : Store :=
  mkStore [[]] 0 [{| x := 0; y := 0 |}] 0 [].

(** Contents of the array the variable [listeners] refers to. *)
Definition live (s : Store) : list Listener := arrays s !!! listeners s.

(** Field values of the object behind a reference. *)
Definition deref (s : Store) (r : nat) : option MousePosition := objs s !! r.

(** [listeners.push(listener)]: the array object is extended in place, every
    alias of it sees the new element. *)
Definition subscribe (l : Listener) (s : Store) : Store :=
  mkStore (alter (λ a, a ++ [l]) (listeners s) (arrays s))
          (listeners s) (objs s) (currentPosition s) (trace s).

(** The closure returned by [subscribe]:
    [listeners = listeners.filter((l) => l !== listener)].  [filter] builds
    a new array; the variable is pointed to it, the old array is untouched. *)
Definition unsubscribe (l : Listener) (s : Store) : Store :=
  mkStore (arrays s ++ [filter (λ l', l' ≠ l) (live s)])
          (length (arrays s)) (objs s) (currentPosition s) (trace s).

(** [getSnapshot: () => currentPosition]: the reference, no allocation. *)
Definition getSnapshot (s : Store) : nat := currentPosition s.

Definition record (o : Obs) (s : Store) : Store :=
  mkStore (arrays s) (listeners s) (objs s) (currentPosition s) (trace s ++ [o]).

(** One store call made from inside a callback. *)
Definition perform (s : Store) (c : Call) : Store :=
  match c with
  | Subscribe l => record (Did c) (subscribe l s)
  | Unsubscribe l => record (Did c) (unsubscribe l s)
  | GetSnapshot => record (Saw (getSnapshot s)) s
  end.

Section Callbacks.

(** The callbacks are the environment of the store.  [body l h] is the
    sequence of store calls that callback [l] makes when it is invoked after
    history [h]; it may differ from one invocation to the next.  A callback
    returns normally and reaches the store only through what the store
    exports; it does not dispatch mouse events itself. *)
Variable body : Listener → list Obs → list Call.

(** [listener()]. *)
Definition invoke (s : Store) (l : Listener) : Store :=
  let s0 := record (Invoked l) s in
  foldl perform s0 (body l (trace s0)).

(** [Array.prototype.forEach]: the length is read once, then for each index
    [k] below it the element is read from the array object as it is at
    that moment (if the index is present) and the callback is called. *)
Fixpoint forEach_loop (n k : nat) (O : nat) (s : Store) : Store :=
  match n with
  | 0 => s
  | S n' =>
      let s' := match arrays s !! O ≫= (λ a, a !! k) with
                | Some l => invoke s l
                | None => s
                end in
      forEach_loop n' (S k) O s'
  end.

Definition forEach (O : nat) (s : Store) : Store :=
  forEach_loop (length (arrays s !!! O)) 0 O s.

(** [emitChange]: [listeners.forEach((listener) => listener())]; the
    receiver is the array the variable refers to when the call starts. *)
Definition emitChange (s : Store) : Store := forEach (listeners s) s.

(** [handleMouseMove]: a fresh position object is assigned to
    [currentPosition], then the listeners are notified. *)
Definition handleMouseMove (e : MouseEvent) (s : Store) : Store :=
  emitChange
    (mkStore (arrays s) (listeners s)
             (objs s ++ [{| x := clientX e; y := clientY e |}])
             (length (objs s)) (trace s)).

(** A run of mouse-move events, as delivered by the window. *)
Definition run (es : list MouseEvent) (s : Store) : Store :=
  foldl (λ st e, handleMouseMove e st) s es.

(** What a client of the store (React, a test) does between renders. *)
Inductive Op :=
  | ClientCall (c : Call)
  | MouseMove (e : MouseEvent).

Definition step (s : Store) (o : Op) : Store :=
  match o with
  | ClientCall (Subscribe l) => subscribe l s
  | ClientCall (Unsubscribe l) => unsubscribe l s
  | ClientCall GetSnapshot => s
  | MouseMove e => handleMouseMove e s
  end.

Definition exec (ops : list Op) (s : Store) : Store := foldl step s ops.

(** The states in which the notification cycles of a run begin. *)
Fixpoint cycle_starts (es : list MouseEvent) (s : Store) : list Store :=
  match es with
  | [] => []
  | e :: es' => s :: cycle_starts es' (handleMouseMove e s)
  end.

End Callbacks.

(** The variable [listeners] refers to an allocated array. *)
Definition wf (s : Store) : Prop := listeners s < length (arrays s).

(** The part of the history of [s'] that was added after [s]. *)
Definition since (s s' : Store) : list Obs :=
  drop (length (trace s)) (trace s').

(** The callbacks invoked in a history, in order, one entry per call. *)
Definition invocations (t : list Obs) : list Listener :=
  omap (λ o, match o with Invoked l => Some l | _ => None end) t.

(** The snapshot references read in a history. *)
Definition sightings (t : list Obs) : list nat :=
  omap (λ o, match o with Saw r => Some r | _ => None end) t.

(** How many times callback [l] occurs in a list of listeners. *)
Definition occurrences (l : Listener) (ls : list Listener) : nat :=
  length (filter (λ l', l' = l) ls).

(** Number of notifications of [l] delivered between [s] and [s']. *)
Definition notified (l : Listener) (s s' : Store) : nat :=
  occurrences l (invocations (since s s')).

(** Two store states that no client can tell apart: same registered
    listeners in the same order, same snapshot, same history.  The
    addresses of the arrays may differ. *)
Definition observably_equal (s1 s2 : Store) : Prop :=
  live s1 = live s2 ∧ objs s1 = objs s2 ∧
  currentPosition s1 = currentPosition s2 ∧ trace s1 = trace s2.

Definition position_of (e : MouseEvent) : MousePosition :=
  {| x := clientX e; y := clientY e |}.

(** [t] is what was added to the history between [s] and [s'], the
    snapshot being the same object throughout. *)
Definition grows (s s' : Store) (t : list Obs) : Prop :=
  trace s' = trace s ++ t ∧ objs s' = objs s ∧
  currentPosition s' = currentPosition s.

(** The entries of a history that come from the inside of a callback:
    never a new invocation, and every snapshot read is [r]. *)
Definition quiet (r : nat) (t : list Obs) : Prop :=
  invocations t = [] ∧ Forall (λ r', r' = r) (sightings t).

(** The loop invariant of [forEach] over the array at address [O] whose
    elements were [L] when the loop started: the array is allocated, it is
    the current array or an older one, and [L] is still its beginning. *)
Definition iterating (O : nat) (L : list Listener) (s : Store) : Prop :=
  wf s ∧ O ≤ listeners s ∧ ∃ pushed, arrays s !! O = Some (L ++ pushed).

(** Both states are well formed and no client can tell them apart. *)
Definition similar (s1 s2 : Store) : Prop :=
  wf s1 ∧ wf s2 ∧ observably_equal s1 s2.

(** In history [t], callback [l] is invoked after a callback has called
    its unsubscribe function. *)
Definition invoked_after_removal (l : Listener) (t : list Obs) : Prop :=
  ∃ t1 t2, t = t1 ++ Did (Unsubscribe l) :: t2 ∧ Invoked l ∈ t2.

(** Callbacks used in the examples: callback 1 calls the unsubscribe
    function of callback 2 and reads the snapshot; every other callback
    only reads the snapshot. *)
Definition example_body (l : Listener) (h : list Obs) : list Call :=
  match l with
  | 1 => [Unsubscribe 2; GetSnapshot]
  | _ => [GetSnapshot]
  end.

(** A fresh store on which callbacks 1 and 2 were subscribed, in this
    order. *)
Definition two_listeners : Store :=
  subscribe 2 (subscribe 1 createMousePositionStore).

(** A fresh store on which the same callback was subscribed twice. *)
Definition same_callback_twice : Store :=
  subscribe 7 (subscribe 7 createMousePositionStore).

Definition move (cx cy : Z) : MouseEvent := {| clientX := cx; clientY := cy |}.

(** The variable [currentPosition] refers to an allocated object. *)
Definition wf_position (s : Store) : Prop :=
  currentPosition s < length (objs s).

(** [subscribe] called once for each callback of [ls], in order. *)
Definition subscribeAll (ls : list Listener) (s : Store) : Store :=
  foldl (λ st l, subscribe l st) s ls.

End MouseStore.

(** ** The viewport size adapter *)

Module WindowSize.

Definition Listener := nat.

(** [interface WindowSize { width: number; height: number }]. *)
Record WindowSize := { width : Z; height : Z }.

(** The host window: the two properties the hooks read and the listeners
    registered for its [resize] event. *)
Record Window := mkWindow {
  innerWidth : Z;
  innerHeight : Z;
  resizeListeners : list Listener
}.

(** [window.addEventListener("resize", cb)]: registering a callback that
    is already registered for the event does nothing. *)
Definition addEventListener (cb : Listener) (w : Window) : Window :=
  if decide (cb ∈ resizeListeners w) then w
  else mkWindow (innerWidth w) (innerHeight w) (resizeListeners w ++ [cb]).

(** [window.removeEventListener("resize", cb)]. *)
Definition removeEventListener (cb : Listener) (w : Window) : Window :=
  mkWindow (innerWidth w) (innerHeight w)
           (filter (λ l, l ≠ cb) (resizeListeners w)).

(** The browser resizes the viewport: the properties change, then the
    [resize] event is dispatched to the registered listeners. *)
Definition resized (nw nh : Z) (w : Window) : Window :=
  mkWindow nw nh (resizeListeners w).

(** The heap of [WindowSize] objects; a reference is an address in it. *)
Abbreviation Heap := (list WindowSize).

(** *** Store-based hook (useSyncExternalStore) *)

(** [subscribe(callback)] and the closure it returns. *)
Definition subscribe (cb : Listener) (w : Window) : Window :=
  addEventListener cb w.

Definition unsubscribe (cb : Listener) (w : Window) : Window :=
  removeEventListener cb w.

(** [getSnapshot]: an object literal, so every call allocates. *)
Definition getSnapshot (w : Window) (h : Heap) : nat * Heap :=
  (length h, h ++ [{| width := innerWidth w; height := innerHeight w |}]).

(** [getServerSnapshot]. *)
Definition getServerSnapshot (h : Heap) : nat * Heap :=
  (length h, h ++ [{| width := 0; height := 0 |}]).

(** Where the hook renders. *)
Inductive Env :=
  | Server
  | Browser (w : Window).

(** [useWindowSize()]: [useSyncExternalStore] hands the component the
    result of the server snapshot function when there is no window and of
    [getSnapshot] in the browser. *)
Definition useWindowSize (env : Env) (h : Heap) : nat * Heap :=
  match env with
  | Server => getServerSnapshot h
  | Browser w => getSnapshot w h
  end.

(** [Object.is] on two snapshots: object snapshots are compared by
    reference. *)
Definition same_snapshot (r1 r2 : nat) : bool := bool_decide (r1 = r2).

(** *** Effect-based hook (useState + useEffect) *)

(** The component instance: the state cell of [useState] and the identity
    of the [handleResize] closure its effect registers. *)
Record Hook := mkHook {
  windowSize : WindowSize;
  handler : Listener
}.

(** First render: [useState({ width: 0, height: 0 })]; the effect has not
    run yet. *)
Definition initialRender (hid : Listener) : Hook :=
  mkHook {| width := 0; height := 0 |} hid.

(** [handleResize]: [setWindowSize({ width: window.innerWidth, ... })]. *)
Definition handleResize (w : Window) (k : Hook) : Hook :=
  mkHook {| width := innerWidth w; height := innerHeight w |} (handler k).

(** The effect, run once after the first commit: [handleResize()] then
    [window.addEventListener("resize", handleResize)]. *)
Definition mount (st : Window * Hook) : Window * Hook :=
  let '(w, k) := st in
  (addEventListener (handler k) w, handleResize w k).

(** The cleanup of the effect. *)
Definition unmount (st : Window * Hook) : Window * Hook :=
  let '(w, k) := st in (removeEventListener (handler k) w, k).

(** A [resize] event reaches the hook if its handler is registered. *)
Definition resizeEvent (nw nh : Z) (st : Window * Hook) : Window * Hook :=
  let '(w, k) := st in
  let w' := resized nw nh w in
  (w', if decide (handler k ∈ resizeListeners w') then handleResize w' k else k).

(** What the component gets from the hook on a render. *)
Definition render (st : Window * Hook) : WindowSize := windowSize (snd st).

(** A burst of [resize] events, each reporting a width and a height. *)
Definition resizeEvents (evs : list (Z * Z)) (st : Window * Hook) :
    Window * Hook :=
  foldl (λ st ev, resizeEvent ev.1 ev.2 st) st evs.

End WindowSize.

(** ** The storage-backed value adapter *)

Module LocalStorage.

Definition Listener := nat.

(** A thrown value; only its message is kept. *)
Definition JSError := string.

(** How a call of a JavaScript function ends. *)
Inductive Completion (A : Type) :=
  | Return (a : A)
  | Throw (e : JSError).
Arguments Return {A} a.
Arguments Throw {A} e.

(** The host objects the hooks touch: [localStorage], the console, and the
    listeners of the window's [storage] event with a ghost record of the
    callbacks the dispatched events reached. *)
Record Host := mkHost {
  localStorage : gmap string string;
  console : list (string * JSError);
  storageListeners : list Listener;
  dispatched : list Listener
}.

(** Code that uses the host and may throw.  Effects done before a throw
    stay done. *)
Definition M (A : Type) : Type := Host → Completion A * Host.

#[export] Instance M_ret : MRet M := λ A a h, (Return a, h).

#[export] Instance M_bind : MBind M := λ A B f m h,
  match m h with
  | (Return a, h') => f a h'
  | (Throw e, h') => (Throw e, h')
  end.

(** [try { m } catch (error) { handler(error) }]. *)
Definition try_catch {A} (m : M A) (handler : JSError → M A) : M A := λ h,
  match m h with
  | (Return a, h') => (Return a, h')
  | (Throw e, h') => handler e h'
  end.

(** Calling a function that does not touch the host. *)
Definition lift {A} (c : Completion A) : M A := λ h, (c, h).

(** [localStorage.getItem(key)]: [null] when the key is absent. *)
Definition getItem (key : string) : M (option string) := λ h,
  (Return (localStorage h !! key), h).

Definition setItem (key raw : string) : M unit := λ h,
  (Return (), mkHost (<[key := raw]> (localStorage h)) (console h)
                     (storageListeners h) (dispatched h)).

Definition removeItem (key : string) : M unit := λ h,
  (Return (), mkHost (delete key (localStorage h)) (console h)
                     (storageListeners h) (dispatched h)).

(** [console.error(message, error)]. *)
Definition console_error (message : string) (error : JSError) : M unit := λ h,
  (Return (), mkHost (localStorage h) (console h ++ [(message, error)])
                     (storageListeners h) (dispatched h)).

(** [window.addEventListener("storage", cb)]; an already registered
    callback is not registered again. *)
Definition addEventListener (cb : Listener) : M unit := λ h,
  (Return (),
   if decide (cb ∈ storageListeners h) then h
   else mkHost (localStorage h) (console h) (storageListeners h ++ [cb])
               (dispatched h)).

Definition removeEventListener (cb : Listener) : M unit := λ h,
  (Return (), mkHost (localStorage h) (console h)
                     (filter (λ l, l ≠ cb) (storageListeners h)) (dispatched h)).

(** [window.dispatchEvent(new Event("storage"))]: every registered
    callback is called, synchronously. *)
Definition dispatchEvent : M unit := λ h,
  (Return (), mkHost (localStorage h) (console h) (storageListeners h)
                     (dispatched h ++ storageListeners h)).

(** A JavaScript string is truthy unless it is empty; [null] is falsy. *)
Definition truthy (s : string) : bool :=
  match s with
  | EmptyString => false
  | String _ _ => true
  end.

(** [defaultValue: T | (() => T)], told apart at run time by
    [typeof defaultValue === "function"]. *)
Inductive Default (T : Type) :=
  | Literal (v : T)
  | Producer (f : unit → Completion T).
Arguments Literal {T} v.
Arguments Producer {T} f.

Definition resolve {T} (d : Default T) : M T :=
  match d with
  | Producer f => lift (f ())
  | Literal v => mret v
  end.

(** [value: T | ((prev: T) => T)], told apart by [instanceof Function]. *)
Inductive SetStateAction (T : Type) :=
  | NewValue (v : T)
  | Updater (f : T → Completion T).
Arguments NewValue {T} v.
Arguments Updater {T} f.

Definition quotation_mark : ascii := "034"%char.
Definition reverse_solidus : ascii := "092"%char.

(** The template literal [`Error deserializing value for key "${key}":`]. *)
Definition deserializeMessage (key : string) : string :=
  "Error deserializing value for key " +:+ String quotation_mark key
    +:+ String quotation_mark ":".

Section Hook.

Context {T : Type}.
Variable key : string.
Variable defaultValue : Default T.
Variable serialize : T → Completion string.
Variable deserialize : string → Completion T.

(** *** Store-based hook (useSyncExternalStore) *)

(** [getStorageValue]: the result of the [try] block is the deserialized
    value; when nothing was stored, or the [catch] block has run, control
    reaches the final [return] of the default. *)
Definition getStorageValue : M T :=
  storedValue ← getItem key;
  found ← match storedValue with
          | Some raw =>
              if truthy raw then
                try_catch (v ← lift (deserialize raw); mret (Some v))
                          (λ error,
                             console_error (deserializeMessage key) error;;
                             mret None)
              else mret None
          | None => mret None
          end;
  match found with
  | Some v => mret v
  | None => resolve defaultValue
  end.

(** [subscribe(callback)] and the closure it returns. *)
Definition subscribe (callback : Listener) : M unit :=
  addEventListener callback.

Definition unsubscribe (callback : Listener) : M unit :=
  removeEventListener callback.

(** [setValue(newValue)]; [value] is the value the hook returned on the
    render that created this [setValue]. *)
Definition setValue (value : T) (newValue : SetStateAction T) : M unit :=
  valueToStore ← match newValue with
                 | Updater f => lift (f value)
                 | NewValue v => mret v
                 end;
  raw ← lift (serialize valueToStore);
  setItem key raw;;
  dispatchEvent.

(** *** Effect-based hook (useState + useRef + useEffect) *)

(** The lazy initializer passed to [useState]. *)
Definition initialState : M T :=
  valueInLocalStorage ← getItem key;
  found ← match valueInLocalStorage with
          | Some raw =>
              if truthy raw then
                try_catch (v ← lift (deserialize raw); mret (Some v))
                          (λ error, removeItem key;; mret None)
              else mret None
          | None => mret None
          end;
  match found with
  | Some v => mret v
  | None => resolve defaultValue
  end.

(** The effect, run after a render with state [state] when [prevKeyRef]
    holds [prevKey]: its work on the storage.  The ref holds [key]
    afterwards. *)
Definition effect (prevKey : string) (state : T) : M unit :=
  (if decide (prevKey ≠ key) then removeItem prevKey else mret ());;
  raw ← lift (serialize state);
  setItem key raw.

End Hook.

(** *** The default [serialize] / [deserialize] pair at [T = string]

    [JSON.stringify] and [JSON.parse] belong to the host.  They are given
    here for string values, over code units below 256: [JSON_stringify] is
    QuoteJSONString, [JSON_parse] accepts a JSON text that consists of one
    string literal and throws on every other text.  It agrees with the
    host function on the texts that are a string literal over these code
    units and on the texts that are not JSON at all; on a JSON text of
    another kind (a number, [null], an object) the host function returns a
    value that is no string, and on an escape of a code unit from 256 on
    it returns a string outside the model: [JSON_parse] is not to be read
    as the host function there, and nothing below evaluates it there. *)

Definition code (c : ascii) : N := N_of_ascii c.

Definition hexDigit (n : N) : ascii :=
  if (n <? 10)%N then ascii_of_N (48 + n) else ascii_of_N (87 + n).

Definition escaped (c : ascii) : string :=
  String reverse_solidus (String c EmptyString).

(** One code unit of QuoteJSONString. *)
Definition quoteChar (c : ascii) : string :=
  let n := code c in
  if (n =? 8)%N then escaped "b"
  else if (n =? 9)%N then escaped "t"
  else if (n =? 10)%N then escaped "n"
  else if (n =? 12)%N then escaped "f"
  else if (n =? 13)%N then escaped "r"
  else if (n =? 34)%N then escaped quotation_mark
  else if (n =? 92)%N then escaped reverse_solidus
  else if (n <? 32)%N then
    String reverse_solidus
      (String "u" (String "0" (String "0"
         (String (hexDigit (n / 16)) (String (hexDigit (n mod 16)) EmptyString)))))
  else String c EmptyString.

Fixpoint quoteChars (s : string) : string :=
  match s with
  | EmptyString => EmptyString
  | String c r => quoteChar c +:+ quoteChars r
  end.

Definition QuoteJSONString (s : string) : string :=
  String quotation_mark (quoteChars s +:+ String quotation_mark EmptyString).

Definition JSON_stringify (v : string) : Completion string :=
  Return (QuoteJSONString v).

Definition isWhitespace (c : ascii) : bool :=
  let n := code c in
  ((n =? 32) || (n =? 9) || (n =? 10) || (n =? 13))%N.

Fixpoint skipWhitespace (s : string) : string :=
  match s with
  | String c r => if isWhitespace c then skipWhitespace r else s
  | EmptyString => s
  end.

(** The character an escape letter stands for. *)
Definition unescape (e : ascii) : option ascii :=
  let n := code e in
  if (n =? 34)%N then Some quotation_mark
  else if (n =? 92)%N then Some reverse_solidus
  else if (n =? 47)%N then Some "/"%char
  else if (n =? 98)%N then Some "008"%char
  else if (n =? 102)%N then Some "012"%char
  else if (n =? 110)%N then Some "010"%char
  else if (n =? 114)%N then Some "013"%char
  else if (n =? 116)%N then Some "009"%char
  else None.

Definition hexValue (c : ascii) : option N :=
  let n := code c in
  if ((48 <=? n) && (n <=? 57))%N then Some (n - 48)%N
  else if ((97 <=? n) && (n <=? 102))%N then Some (n - 87)%N
  else if ((65 <=? n) && (n <=? 70))%N then Some (n - 55)%N
  else None.

(** The code unit of [\uXXXX]; escapes of code units from 256 on are
    outside the modelled strings. *)
Definition hex4 (h1 h2 h3 h4 : ascii) : option ascii :=
  a ← hexValue h1; b ← hexValue h2; c ← hexValue h3; d ← hexValue h4;
  let n := (4096 * a + 256 * b + 16 * c + d)%N in
  if (n <? 256)%N then Some (ascii_of_N n) else None.

Definition prepend (c : ascii) (r : option (string * string)) :
    option (string * string) :=
  match r with
  | Some (v, rest) => Some (String c v, rest)
  | None => None
  end.

(** The characters of a string literal after its opening quotation mark:
    the value and the text that follows the closing quotation mark. *)
Fixpoint parseChars (s : string) : option (string * string) :=
  match s with
  | EmptyString => None
  | String c r =>
      if (code c =? 34)%N then Some (EmptyString, r)
      else if (code c =? 92)%N then
        match r with
        | String e r' =>
            if (code e =? 117)%N then
              match r' with
              | String h1 (String h2 (String h3 (String h4 r''))) =>
                  match hex4 h1 h2 h3 h4 with
                  | Some u => prepend u (parseChars r'')
                  | None => None
                  end
              | _ => None
              end
            else
              match unescape e with
              | Some u => prepend u (parseChars r')
              | None => None
              end
        | EmptyString => None
        end
      else if (code c <? 32)%N then None
      else prepend c (parseChars r)
  end.

Definition JSON_parse (text : string) : Completion string :=
  match skipWhitespace text with
  | String c r =>
      if (code c =? 34)%N then
        match parseChars r with
        | Some (v, rest) =>
            match skipWhitespace rest with
            | EmptyString => Return v
            | String _ _ => Throw "SyntaxError"
            end
        | None => Throw "SyntaxError"
        end
      else Throw "SyntaxError"
  | EmptyString => Throw "SyntaxError"
  end.

(** A host with nothing stored, no listeners and an empty console. *)
Definition emptyHost : Host := mkHost ∅ [] [] [].

(** A host whose only stored entry is [raw] under [key]. *)
Definition hostWith (key raw : string) : Host :=
  mkHost {[ key := raw ]} [] [] [].

(** How the final [return] of the default ends: the literal, or whatever
    the call of the producer does. *)
Definition outcome {T} (d : Default T) : Completion T :=
  match d with
  | Producer f => f ()
  | Literal v => Return v
  end.

(** The host after [n] calls of [read] in a row, as on [n] renders. *)
Definition afterReads {T} (read : M T) (n : nat) (h : Host) : Host :=
  Nat.iter n (λ h', snd (read h')) h.

End LocalStorage.

(** ** The effect-based pointer position hook *)

Module MousePositionEffect.

Definition Listener := nat.

Abbreviation MousePosition := MouseStore.MousePosition.
Abbreviation MouseEvent := MouseStore.MouseEvent.

(** The listeners registered for the [mousemove] event of the window. *)
Record Window := mkWindow {
  mousemoveListeners : list Listener
}.

Definition addEventListener (cb : Listener) (w : Window) : Window :=
  if decide (cb ∈ mousemoveListeners w) then w
  else mkWindow (mousemoveListeners w ++ [cb]).

Definition removeEventListener (cb : Listener) (w : Window) : Window :=
  mkWindow (filter (λ l, l ≠ cb) (mousemoveListeners w)).

(** The component instance: the state cell of [useState] and the identity
    of the [handleMouseMove] closure its effect registers. *)
Record Hook := mkHook {
  mousePosition : MousePosition;
  handler : Listener
}.

(** First render: [useState({ x: 0, y: 0 })]. *)
Definition initialRender (hid : Listener) : Hook :=
  mkHook {| MouseStore.x := 0; MouseStore.y := 0 |} hid.

(** [handleMouseMove(event)]:
    [setMousePosition({ x: event.clientX, y: event.clientY })]. *)
Definition handleMouseMove (e : MouseEvent) (k : Hook) : Hook :=
  mkHook {| MouseStore.x := MouseStore.clientX e;
            MouseStore.y := MouseStore.clientY e |} (handler k).

(** The effect: [window.addEventListener("mousemove", handleMouseMove)];
    the position is not read when the effect runs. *)
Definition mount (st : Window * Hook) : Window * Hook :=
  let '(w, k) := st in (addEventListener (handler k) w, k).

(** The cleanup of the effect. *)
Definition unmount (st : Window * Hook) : Window * Hook :=
  let '(w, k) := st in (removeEventListener (handler k) w, k).

(** A [mousemove] event reaches the hook if its handler is registered. *)
Definition mouseMoveEvent (st : Window * Hook) (e : MouseEvent) :
    Window * Hook :=
  let '(w, k) := st in
  (w, if decide (handler k ∈ mousemoveListeners w) then handleMouseMove e k
      else k).

Definition mouseMoveEvents (es : list MouseEvent) (st : Window * Hook) :
    Window * Hook :=
  foldl mouseMoveEvent st es.

Definition render (st : Window * Hook) : MousePosition := mousePosition (snd st).

End MousePositionEffect.

(** ** The intersection observer hook *)

Module IntersectionObserver.

(** A DOM element, by identity. *)
Definition Element := nat.

(** The part of an [IntersectionObserverEntry] the hook and the host use. *)
Record Entry := mkEntry {
  target : Element;
  isIntersecting : bool
}.

(** A thrown value; only its kind is kept. *)
Inductive Completion (A : Type) :=
  | Return (a : A)
  | Throw (e : string).
Arguments Return {A} a.
Arguments Throw {A} e.

(** The component instance: the state cell of [useState(false)] and the
    targets the observer created by the last effect is observing (none
    before the effect has run and after [disconnect]). *)
Record Hook := mkHook {
  isIntersectingState : bool;
  observed : list Element
}.

(** First render: [useState(false)]. *)
Definition initialRender : Hook := mkHook false [].

(** The observer callback [([entry]) => setIsIntersecting(entry.isIntersecting)]:
    the parameter pattern takes the first element of the array; on an empty
    array [entry] is [undefined] and reading its property throws. *)
Definition callback (entries : list Entry) (k : Hook) : Completion Hook :=
  match entries with
  | entry :: _ => Return (mkHook (isIntersecting entry) (observed k))
  | [] => Throw "TypeError"
  end.

(** The effect: a new observer, and [observer.observe(ref.current)] if the
    ref holds an element ([refCurrent] is [ref.current] at that time). *)
Definition effect (refCurrent : option Element) (k : Hook) : Hook :=
  match refCurrent with
  | Some el => mkHook (isIntersectingState k) [el]
  | None => mkHook (isIntersectingState k) []
  end.

(** The cleanup: [observer.disconnect()]. *)
Definition cleanup (k : Hook) : Hook := mkHook (isIntersectingState k) [].

(** The host reports a batch of changes: the observer queues the entries
    of the targets it observes and calls the callback if any is queued. *)
Definition deliver (k : Hook) (batch : list Entry) : Completion Hook :=
  match filter (λ e, target e ∈ observed k) batch with
  | [] => Return k
  | queued => callback queued k
  end.

(** Batches delivered one after the other; a throwing callback ends it. *)
Fixpoint deliverAll (batches : list (list Entry)) (k : Hook) : Completion Hook :=
  match batches with
  | [] => Return k
  | b :: rest =>
      match deliver k b with
      | Return k' => deliverAll rest k'
      | Throw e => Throw e
      end
  end.

Definition render (k : Hook) : bool := isIntersectingState k.

End IntersectionObserver.

(** ** The media query hook *)

Module MediaQuery.

Definition Listener := nat.

(** A [MediaQueryList] object: its query and the listeners of its
    [change] event. *)
Record MediaQueryList := mkList {
  media : string;
  changeListeners : list Listener
}.

(** The host: the [MediaQueryList] objects by address, which queries
    match at present, and a ghost record of the callbacks that [change]
    events reached. *)
Record Host := mkHost {
  lists : list MediaQueryList;
  matching : string → bool;
  notifiedCallbacks : list Listener
}.

(** [window.matchMedia(query)]: every call creates a list object. *)
Definition matchMedia (query : string) (h : Host) : nat * Host :=
  (length (lists h),
   mkHost (lists h ++ [mkList query []]) (matching h) (notifiedCallbacks h)).

(** [list.addEventListener("change", cb)] on the object at [a]. *)
Definition addEventListener (a : nat) (cb : Listener) (h : Host) : Host :=
  mkHost (alter (λ l, if decide (cb ∈ changeListeners l) then l
                      else mkList (media l) (changeListeners l ++ [cb]))
                a (lists h))
         (matching h) (notifiedCallbacks h).

(** [list.removeEventListener("change", cb)] on the object at [a]. *)
Definition removeEventListener (a : nat) (cb : Listener) (h : Host) : Host :=
  mkHost (alter (λ l, mkList (media l) (filter (λ c, c ≠ cb) (changeListeners l)))
                a (lists h))
         (matching h) (notifiedCallbacks h).

(** [getSnapshot]: [window.matchMedia(query).matches]. *)
Definition getSnapshot (query : string) (h : Host) : bool * Host :=
  let '(a, h') := matchMedia query h in (matching h' query, h').

(** [subscribe(callback)]: the result stands for the returned closure,
    which captures the list object [matchQueryList]. *)
Definition subscribe (query : string) (callback : Listener) (h : Host) :
    nat * Host :=
  let '(matchQueryList, h') := matchMedia query h in
  (matchQueryList, addEventListener matchQueryList callback h').

(** The closure returned by [subscribe]. *)
Definition unsubscribe (matchQueryList : nat) (callback : Listener) (h : Host) :
    Host :=
  removeEventListener matchQueryList callback h.

(** The callbacks registered on the list objects of [query], object by
    object. *)
Definition registered (query : string) (h : Host) : list Listener :=
  concat (changeListeners <$> filter (λ l, media l = query) (lists h)).

(** The environment changes so that [query] matches or stops matching:
    every list object of that query fires [change]. *)
Definition mediaChange (query : string) (h : Host) : Host :=
  mkHost (lists h)
         (λ q, if decide (q = query) then negb (matching h q) else matching h q)
         (notifiedCallbacks h ++ registered query h).

Definition emptyHost : Host := mkHost [] (λ _, false) [].

End MediaQuery.

(** * Properties of the mouse-position store *)

Module MouseStoreFacts.
Import MouseStore.

(** ** Elementary facts about the two heaps *)

Lemma wf_create : wf createMousePositionStore.
Proof. unfold wf; simpl; lia. Qed.

Lemma wf_subscribe l s : wf s → wf (subscribe l s).
Proof. unfold wf; simpl. by rewrite length_alter. Qed.

Lemma wf_unsubscribe l s : wf (unsubscribe l s).
Proof. unfold wf; simpl. rewrite length_app; simpl; lia. Qed.

Lemma wf_record o s : wf s → wf (record o s).
Proof. done. Qed.

Lemma wf_perform s c : wf s → wf (perform s c).
Proof.
  destruct c; simpl; intros Hs.
  - by apply wf_record, wf_subscribe.
  - apply wf_record, wf_unsubscribe.
  - by apply wf_record.
Qed.

Lemma wf_performs cs : ∀ s, wf s → wf (foldl perform s cs).
Proof. induction cs as [|c cs IH]; simpl; auto using wf_perform. Qed.

Lemma live_lookup s : wf s → arrays s !! listeners s = Some (live s).
Proof. intros Hs. by apply list_lookup_lookup_total_lt. Qed.

Lemma live_subscribe l s : wf s → live (subscribe l s) = live s ++ [l].
Proof.
  intros Hs. unfold live; simpl.
  by rewrite list_lookup_total_alter_eq.
Qed.

Lemma live_unsubscribe l s :
  live (unsubscribe l s) = filter (λ l', l' ≠ l) (live s).
Proof.
  unfold live at 1; simpl.
  apply list_lookup_total_correct.
  by rewrite lookup_app_r, Nat.sub_diag.
Qed.

Lemma live_record o s : live (record o s) = live s.
Proof. done. Qed.

Lemma since_app s s' t : trace s' = trace s ++ t → since s s' = t.
Proof. intros E. unfold since. by rewrite E, drop_app_length. Qed.

Lemma invocations_app t1 t2 :
  invocations (t1 ++ t2) = invocations t1 ++ invocations t2.
Proof. apply omap_app. Qed.

Lemma sightings_app t1 t2 : sightings (t1 ++ t2) = sightings t1 ++ sightings t2.
Proof. apply omap_app. Qed.

Lemma occurrences_app l ls1 ls2 :
  occurrences l (ls1 ++ ls2) = occurrences l ls1 + occurrences l ls2.
Proof. unfold occurrences. by rewrite filter_app, length_app. Qed.

Lemma occurrences_zero l ls : occurrences l ls = 0 ↔ l ∉ ls.
Proof.
  unfold occurrences. rewrite length_zero_iff_nil. split.
  - intros E Hin.
    assert (l ∈ filter (λ l', l' = l) ls) as H
      by (apply list_elem_of_filter; done).
    rewrite E in H. by apply not_elem_of_nil in H.
  - intros Hnot. induction ls as [|a ls IH]; [done|].
    apply not_elem_of_cons in Hnot as [Hne Hnot].
    rewrite filter_cons_False by congruence. auto.
Qed.

Lemma filter_absent (l : Listener) (ls : list Listener) :
  l ∉ ls → filter (λ l', l' ≠ l) ls = ls.
Proof.
  induction ls as [|a ls IH]; [done|].
  intros [Hne Hnot]%not_elem_of_cons.
  rewrite filter_cons_True by congruence. by rewrite IH.
Qed.

(** ** What a callback can and cannot change *)

Lemma grows_refl s : grows s s [].
Proof. unfold grows. by rewrite app_nil_r. Qed.

Lemma grows_trans s1 s2 s3 t1 t2 :
  grows s1 s2 t1 → grows s2 s3 t2 → grows s1 s3 (t1 ++ t2).
Proof.
  intros (E1 & O1 & P1) (E2 & O2 & P2). unfold grows.
  rewrite E2, E1, app_assoc. repeat split; congruence.
Qed.

Lemma quiet_app r t1 t2 : quiet r t1 → quiet r t2 → quiet r (t1 ++ t2).
Proof.
  intros [I1 S1] [I2 S2]. split.
  - by rewrite invocations_app, I1, I2.
  - rewrite sightings_app. by apply Forall_app.
Qed.

Lemma perform_grows s c :
  ∃ o, grows s (perform s c) [o] ∧ quiet (currentPosition s) [o].
Proof.
  destruct c; simpl; eexists; (split; [by unfold grows|]);
    split; simpl; try done; repeat constructor.
Qed.

Lemma performs_grows cs : ∀ s,
  ∃ t, grows s (foldl perform s cs) t ∧ quiet (currentPosition s) t.
Proof.
  induction cs as [|c cs IH]; intros s; simpl.
  - exists []. split; [apply grows_refl | by split].
  - destruct (perform_grows s c) as (o & G1 & Q1).
    destruct (IH (perform s c)) as (t & G2 & Q2).
    exists ([o] ++ t). split; [by eapply grows_trans|].
    apply quiet_app; [done|].
    destruct G1 as (_ & _ & <-). done.
Qed.

Section Callbacks.

Variable body : Listener → list Obs → list Call.

Lemma wf_invoke s l : wf s → wf (invoke body s l).
Proof. intros Hs. unfold invoke. by apply wf_performs, wf_record. Qed.

Lemma wf_invokes ls : ∀ s, wf s → wf (foldl (invoke body) s ls).
Proof. induction ls as [|l ls IH]; simpl; auto using wf_invoke. Qed.

Lemma invoke_grows s l :
  ∃ t, grows s (invoke body s l) (Invoked l :: t) ∧ quiet (currentPosition s) t.
Proof.
  unfold invoke.
  destruct (performs_grows (body l (trace (record (Invoked l) s)))
              (record (Invoked l) s)) as (t & G & Q).
  exists t. split; [|done].
  change (Invoked l :: t) with ([Invoked l] ++ t).
  eapply grows_trans; [|exact G]. by unfold grows.
Qed.

(** A sequence of callback invocations adds to the history exactly one
    [Invoked] entry per call, in order, whatever the callbacks do. *)
Lemma invokes_grows ls : ∀ s,
  ∃ t, grows s (foldl (invoke body) s ls) t ∧ invocations t = ls ∧
       Forall (λ r, r = currentPosition s) (sightings t).
Proof.
  induction ls as [|l ls IH]; intros s; simpl.
  - exists []. split; [apply grows_refl|]. split; [done | constructor].
  - destruct (invoke_grows s l) as (t1 & G1 & I1 & S1).
    destruct (IH (invoke body s l)) as (t2 & G2 & I2 & S2).
    exists ((Invoked l :: t1) ++ t2). split; [by eapply grows_trans|].
    split.
    + rewrite invocations_app. simpl. unfold invocations in I1, I2 |- *.
      by rewrite I1, I2.
    + rewrite sightings_app. apply Forall_app. split; [exact S1|].
      destruct G1 as (_ & _ & <-). exact S2.
Qed.

(** ** The iteration of [emitChange] *)

Lemma iterating_perform O L s c : iterating O L s → iterating O L (perform s c).
Proof.
  intros (Hwf & Hle & pushed & Harr).
  split; [by apply wf_perform|].
  destruct c as [l|l|]; simpl.
  - split; [done|].
    destruct (decide (listeners s = O)) as [->|Hne].
    + exists (pushed ++ [l]).
      rewrite list_lookup_alter_eq, Harr; simpl. by rewrite app_assoc.
    + exists pushed. by rewrite list_lookup_alter_ne.
  - unfold wf in Hwf. split; [lia|].
    exists pushed. rewrite lookup_app_l by lia. done.
  - split; [done|]. by exists pushed.
Qed.

Lemma iterating_performs O L cs : ∀ s,
  iterating O L s → iterating O L (foldl perform s cs).
Proof. induction cs as [|c cs IH]; simpl; auto using iterating_perform. Qed.

Lemma iterating_invoke O L s l :
  iterating O L s → iterating O L (invoke body s l).
Proof.
  intros H. unfold invoke. apply iterating_performs.
  destruct H as (Hwf & Hle & pushed & Harr).
  split; [done|]. split; [done|]. by exists pushed.
Qed.

(** From index [k] on, the loop calls the listeners that were in the array
    when the loop started, whatever the callbacks push or remove. *)
Lemma forEach_loop_iterating O L : ∀ n k s,
  iterating O L s → k + n = length L →
  forEach_loop body n k O s = foldl (invoke body) s (drop k L).
Proof.
  induction n as [|n IH]; intros k s Hit Hlen; simpl.
  - rewrite drop_ge by lia. done.
  - assert (k < length L) as Hk by lia.
    destruct (lookup_lt_is_Some_2 L k Hk) as [l Hl].
    destruct Hit as (Hwf & Hle & pushed & Harr).
    rewrite Harr; simpl. rewrite lookup_app_l, Hl by done.
    rewrite (drop_S L l k Hl); simpl.
    apply IH; [|lia].
    apply iterating_invoke. split; [done|]. split; [done|]. by exists pushed.
Qed.

Lemma emitChange_live s :
  wf s → emitChange body s = foldl (invoke body) s (live s).
Proof.
  intros Hwf. unfold emitChange, forEach. fold (live s).
  rewrite (forEach_loop_iterating (listeners s) (live s)); [done| |lia].
  split; [done|]. split; [done|].
  exists []. rewrite app_nil_r. by apply live_lookup.
Qed.

(** Without any assumption the loop is still a sequence of callback
    invocations. *)
Lemma forEach_loop_invokes O : ∀ n k s,
  ∃ ls, forEach_loop body n k O s = foldl (invoke body) s ls.
Proof.
  induction n as [|n IH]; intros k s; simpl.
  - by exists [].
  - destruct (arrays s !! O ≫= (λ a, a !! k)) as [l|].
    + destruct (IH (S k) (invoke body s l)) as [ls E].
      exists (l :: ls). by rewrite E.
    + apply IH.
Qed.

(** ** One notification cycle *)

(** Whatever the state, a cycle installs the new position object and every
    snapshot read during the cycle returns it. *)
Lemma handleMouseMove_cache e s :
  let s' := handleMouseMove body e s in
  ∃ t, trace s' = trace s ++ t ∧
       Forall (λ r, r = length (objs s)) (sightings t) ∧
       objs s' = objs s ++ [position_of e] ∧
       currentPosition s' = length (objs s).
Proof.
  simpl. unfold handleMouseMove, emitChange, forEach.
  match goal with |- context [forEach_loop body ?n ?k ?O ?s1] =>
    destruct (forEach_loop_invokes O n k s1) as [ls ->];
    destruct (invokes_grows ls s1) as (t & (Et & Eo & Ec) & _ & Hs)
  end.
  exists t. simpl in *. by rewrite Et, Eo, Ec.
Qed.

Lemma handleMouseMove_snapshot e s :
  let s' := handleMouseMove body e s in
  deref s' (getSnapshot s') = Some (position_of e).
Proof.
  simpl. destruct (handleMouseMove_cache e s) as (t & _ & _ & Eo & Ec).
  unfold deref, getSnapshot. rewrite Eo, Ec.
  by rewrite lookup_app_r, Nat.sub_diag.
Qed.

(** In a well-formed state the callbacks invoked in a cycle are exactly
    the elements of the listener array at the start of the cycle. *)
Lemma handleMouseMove_invocations e s :
  wf s → invocations (since s (handleMouseMove body e s)) = live s.
Proof.
  intros Hwf. unfold handleMouseMove.
  rewrite emitChange_live by done.
  match goal with |- context [foldl (invoke body) ?s1 ?ls] =>
    destruct (invokes_grows ls s1) as (t & (Et & _) & Hi & _)
  end.
  simpl in Et. by rewrite (since_app _ _ t).
Qed.

Lemma wf_handleMouseMove e s : wf s → wf (handleMouseMove body e s).
Proof.
  intros Hwf. unfold handleMouseMove.
  rewrite emitChange_live by done. by apply wf_invokes.
Qed.

(** ** Runs of events *)

Lemma run_snoc es e s :
  run body (es ++ [e]) s = handleMouseMove body e (run body es s).
Proof. unfold run. by rewrite foldl_app. Qed.

Lemma wf_run es : ∀ s, wf s → wf (run body es s).
Proof.
  induction es as [|e es IH]; intros s Hwf; [done|].
  apply IH. by apply wf_handleMouseMove.
Qed.

Lemma handleMouseMove_trace e s :
  ∃ t, trace (handleMouseMove body e s) = trace s ++ t.
Proof. destruct (handleMouseMove_cache e s) as (t & E & _). by exists t. Qed.

(** The callbacks invoked in a run are, cycle after cycle, the listeners
    registered when the cycle began. *)
Lemma run_invocations es : ∀ s,
  wf s →
  ∃ t, trace (run body es s) = trace s ++ t ∧
       invocations t = concat (live <$> cycle_starts body es s).
Proof.
  induction es as [|e es IH]; intros s Hwf; simpl.
  - exists []. by rewrite app_nil_r.
  - destruct (handleMouseMove_trace e s) as (t1 & E1).
    pose proof (handleMouseMove_invocations e s Hwf) as I1.
    rewrite (since_app _ _ _ E1) in I1.
    destruct (IH (handleMouseMove body e s)) as (t2 & E2 & I2);
      [by apply wf_handleMouseMove|].
    exists (t1 ++ t2). split.
    + change (run body (e :: es) s) with (run body es (handleMouseMove body e s)).
      by rewrite E2, E1, app_assoc.
    + by rewrite invocations_app, I1, I2.
Qed.

Lemma occurrences_cycles l k (sts : list Store) :
  Forall (λ st, occurrences l (live st) = k) sts →
  occurrences l (concat (live <$> sts)) = k * length sts.
Proof.
  induction 1 as [|st sts H1 _ IH]; [simpl; by rewrite Nat.mul_0_r|].
  rewrite fmap_cons.
  change (concat (live st :: (live <$> sts)))
    with (live st ++ concat (live <$> sts)).
  rewrite occurrences_app, H1, IH. simpl. rewrite Nat.mul_succ_r. lia.
Qed.

Lemma length_cycle_starts es : ∀ s, length (cycle_starts body es s) = length es.
Proof. induction es as [|e es IH]; intros s; simpl; [done|]. by rewrite IH. Qed.

(** ** States that cannot be told apart *)

Lemma similar_record o s1 s2 : similar s1 s2 → similar (record o s1) (record o s2).
Proof.
  intros (W1 & W2 & L & O & P & T).
  split; [done|]. split; [done|].
  unfold observably_equal; simpl. rewrite T. by rewrite !live_record.
Qed.

Lemma similar_subscribe l s1 s2 :
  similar s1 s2 → similar (subscribe l s1) (subscribe l s2).
Proof.
  intros (W1 & W2 & L & O & P & T).
  split; [by apply wf_subscribe|]. split; [by apply wf_subscribe|].
  unfold observably_equal. rewrite !live_subscribe by done. by rewrite L.
Qed.

Lemma similar_unsubscribe l s1 s2 :
  similar s1 s2 → similar (unsubscribe l s1) (unsubscribe l s2).
Proof.
  intros (W1 & W2 & L & O & P & T).
  split; [apply wf_unsubscribe|]. split; [apply wf_unsubscribe|].
  unfold observably_equal. rewrite !live_unsubscribe. by rewrite L.
Qed.

Lemma similar_perform c s1 s2 :
  similar s1 s2 → similar (perform s1 c) (perform s2 c).
Proof.
  intros H. destruct c; simpl.
  - by apply similar_record, similar_subscribe.
  - by apply similar_record, similar_unsubscribe.
  - unfold getSnapshot. destruct H as (W1 & W2 & L & O & P & T).
    rewrite P. by apply similar_record.
Qed.

Lemma similar_performs cs : ∀ s1 s2,
  similar s1 s2 → similar (foldl perform s1 cs) (foldl perform s2 cs).
Proof. induction cs as [|c cs IH]; simpl; auto using similar_perform. Qed.

Lemma similar_invoke l s1 s2 :
  similar s1 s2 → similar (invoke body s1 l) (invoke body s2 l).
Proof.
  intros H. unfold invoke.
  pose proof (similar_record (Invoked l) _ _ H) as H'.
  destruct H' as (W1 & W2 & L & O & P & T). rewrite T.
  apply similar_performs. by repeat split.
Qed.

Lemma similar_invokes ls : ∀ s1 s2,
  similar s1 s2 → similar (foldl (invoke body) s1 ls) (foldl (invoke body) s2 ls).
Proof. induction ls as [|l ls IH]; simpl; auto using similar_invoke. Qed.

Lemma similar_handleMouseMove e s1 s2 :
  similar s1 s2 → similar (handleMouseMove body e s1) (handleMouseMove body e s2).
Proof.
  intros (W1 & W2 & L & O & P & T). unfold handleMouseMove.
  rewrite !emitChange_live by done.
  unfold live in *; simpl. rewrite L.
  apply similar_invokes. split; [done|]. split; [done|].
  unfold observably_equal, live; simpl. by rewrite L, O, T.
Qed.

Lemma similar_step o s1 s2 :
  similar s1 s2 → similar (step body s1 o) (step body s2 o).
Proof.
  intros H. destruct o as [[l|l|]|e]; simpl.
  - by apply similar_subscribe.
  - by apply similar_unsubscribe.
  - done.
  - by apply similar_handleMouseMove.
Qed.

Lemma similar_exec ops : ∀ s1 s2,
  similar s1 s2 → similar (exec body ops s1) (exec body ops s2).
Proof.
  unfold exec. induction ops as [|o ops IH]; simpl; auto using similar_step.
Qed.

(** Calling the unsubscribe function of a callback that is not registered
    has no observable effect, now or later. *)
Lemma unsubscribe_absent l s ops :
  wf s → l ∉ live s →
  observably_equal (exec body ops (unsubscribe l s)) (exec body ops s).
Proof.
  intros Hwf Hnot. apply similar_exec.
  split; [apply wf_unsubscribe|]. split; [done|].
  unfold observably_equal. rewrite live_unsubscribe. split; [|done].
  by apply filter_absent.
Qed.

(** Every state a client can reach from a fresh store is well formed. *)
Lemma wf_exec ops : ∀ s, wf s → wf (exec body ops s).
Proof.
  unfold exec. induction ops as [|o ops IH]; intros s Hwf; simpl; [done|].
  apply IH. destruct o as [[l|l|]|e]; simpl;
    auto using wf_subscribe, wf_unsubscribe, wf_handleMouseMove.
Qed.

(** Between events the snapshot is the same object: no client call
    replaces it. *)
Lemma getSnapshot_stable (calls : list Call) : ∀ s,
  getSnapshot (exec body (ClientCall <$> calls) s) = getSnapshot s.
Proof.
  unfold exec. induction calls as [|c calls IH]; intros s; simpl; [done|].
  rewrite IH. by destruct c.
Qed.

End Callbacks.

(** ** The claims about the store *)

(** C2, as stated, fails: callback 1 removes callback 2 while the cycle is
    in progress, and callback 2 is invoked later in that same cycle. *)
Lemma C2_removed_listener_still_invoked :
  let s' := handleMouseMove example_body (move 3 4) two_listeners in
  trace s' = [Invoked 1; Did (Unsubscribe 2); Saw 1; Invoked 2; Saw 1] ∧
  live s' = [1] ∧
  invoked_after_removal 2 (since two_listeners s').
Proof.
  simpl. split; [reflexivity|]. split; [reflexivity|].
  exists [Invoked 1], [Saw 1; Invoked 2; Saw 1].
  split; [reflexivity|]. set_solver.
Qed.

(** C2, amended: a notification cycle invokes exactly the listeners that
    were in the listener array when the cycle began, each entry once and in
    order, whatever the callbacks subscribe or unsubscribe meanwhile (so a
    listener removed during the cycle is still invoked in it if its turn
    had not come, and no other listener is skipped or invoked twice); a
    listener that is not registered when a cycle begins is not invoked in
    that cycle; and a listener is out of the array as soon as its
    unsubscribe function returns.  No operation of the store throws: the
    embedding is total. *)
Theorem C2_cycle_invokes_start_array body s e :
  wf s →
  let s' := handleMouseMove body e s in
  invocations (since s s') = live s ∧
  (∀ l e', l ∉ live s' →
           l ∉ invocations (since s' (handleMouseMove body e' s'))) ∧
  (∀ l s0, l ∉ live (unsubscribe l s0)).
Proof.
  intros Hwf; simpl. split; [by apply handleMouseMove_invocations|]. split.
  - intros l e' Hnot.
    rewrite handleMouseMove_invocations; [done|].
    by apply wf_handleMouseMove.
  - intros l s0. rewrite live_unsubscribe.
    rewrite list_elem_of_filter. tauto.
Qed.

(** On the example: callbacks 1 and 2 are both invoked, although 1 removes
    2 before the turn of 2. *)
Lemma C2_cycle_invokes_start_array_witness :
  wf two_listeners ∧
  invocations (since two_listeners
                 (handleMouseMove example_body (move 3 4) two_listeners))
    = live two_listeners.
Proof.
  assert (wf two_listeners) as Hwf by (unfold wf; simpl; lia).
  split; [exact Hwf|].
  exact (proj1 (C2_cycle_invokes_start_array example_body two_listeners
                  (move 3 4) Hwf)).
Defined.

(** C3: calling an unsubscribe function a second time changes nothing a
    client can observe.  After any further client calls and mouse events,
    the store that saw two calls and the store that saw one have the same
    registered listeners, the same snapshot and the same history of
    notifications; the second call removes no other listener and, like
    every store operation, cannot throw. *)
Theorem C3_unsubscribe_twice body l s ops :
  observably_equal (exec body ops (unsubscribe l (unsubscribe l s)))
                   (exec body ops (unsubscribe l s)).
Proof.
  apply similar_exec.
  split; [apply wf_unsubscribe|]. split; [apply wf_unsubscribe|].
  unfold observably_equal. rewrite !live_unsubscribe.
  split; [|done].
  rewrite list_filter_filter. apply list_filter_iff. tauto.
Qed.

(** C4: a mouse-move event with coordinates (cx, cy) makes the cached
    position {x: cx, y: cy} before the listeners run: after the cycle
    [getSnapshot] is that object, and every snapshot read by any callback
    during the cycle returned that same object. *)
Theorem C4_cache_before_listeners body s e :
  let s' := handleMouseMove body e s in
  deref s' (getSnapshot s') = Some (position_of e) ∧
  Forall (λ r, r = getSnapshot s' ∧ deref s' r = Some (position_of e))
         (sightings (since s s')).
Proof.
  simpl. destruct (handleMouseMove_cache body e s) as (t & Et & Hs & Eo & Ec).
  pose proof (handleMouseMove_snapshot body e s) as D; simpl in D.
  split; [exact D|].
  rewrite (since_app _ _ _ Et).
  eapply Forall_impl; [exact Hs|].
  intros r ->. unfold getSnapshot in *. rewrite Ec in D |- *. done.
Qed.

(** The callbacks of the example do read the snapshot during the cycle:
    each of them sees the object allocated for the event. *)
Example sightings_in_cycle :
  let s' := handleMouseMove example_body (move 3 4) two_listeners in
  sightings (since two_listeners s') = [1; 1] ∧
  deref s' 1 = Some {| x := 3; y := 4 |}.
Proof. split; reflexivity. Qed.

Lemma occurrences_concat l (lss : list (list Listener)) :
  occurrences l (concat lss) = sum_list (occurrences l <$> lss).
Proof.
  induction lss as [|ls lss IH]; [done|].
  change (concat (ls :: lss)) with (ls ++ concat lss).
  rewrite occurrences_app, IH. done.
Qed.

Lemma sum_list_at_least_length (xs : list nat) :
  Forall (λ x, 1 ≤ x) xs → length xs ≤ sum_list xs.
Proof. induction 1 as [|x xs Hx _ IH]; simpl; lia. Qed.

Lemma sum_list_at_most_length (xs : list nat) :
  Forall (λ x, 1 ≤ x) xs →
  sum_list xs ≤ length xs ↔ Forall (λ x, x = 1) xs.
Proof.
  induction 1 as [|x xs Hx Hxs IH]; simpl.
  - split; [constructor|lia].
  - pose proof (sum_list_at_least_length xs Hxs) as Hge. split.
    + intros Hle. constructor; [lia|]. apply IH. lia.
    + intros Hall. apply Forall_cons in Hall as [-> Hall].
      apply IH in Hall. lia.
Qed.

(** C5, as stated, fails on its upper bound: a callback that was passed to
    subscribe twice stays registered throughout a run of two events and
    is notified four times. *)
Lemma C5_callback_subscribed_twice :
  let es := [move 1 1; move 3 4] in
  let s' := run example_body es same_callback_twice in
  Forall (λ st, 7 ∈ live st) (cycle_starts example_body es same_callback_twice) ∧
  notified 7 same_callback_twice s' = 4 ∧
  ¬ notified 7 same_callback_twice s' ≤ length es.
Proof.
  simpl. split; [|split].
  - repeat constructor.
  - reflexivity.
  - vm_compute. lia.
Qed.

(** C5, amended: after a sequence of N >= 1 mouse-move events the snapshot
    is the position of the last event, and a callback that is registered
    at the start of each of the N cycles is notified once for every
    registration it has at the start of every cycle: at least N times,
    hence at least once; exactly k * N times when it has k registrations
    throughout; and at most N times exactly when it has a single
    registration at the start of each cycle. *)
Theorem C5_event_sequence_per_registration body s es e l :
  wf s →
  Forall (λ st, 1 ≤ occurrences l (live st))
         (cycle_starts body (es ++ [e]) s) →
  let s' := run body (es ++ [e]) s in
  let starts := cycle_starts body (es ++ [e]) s in
  let N := length (es ++ [e]) in
  deref s' (getSnapshot s') = Some (position_of e) ∧
  notified l s s' = sum_list ((λ st, occurrences l (live st)) <$> starts) ∧
  1 ≤ N ≤ notified l s s' ∧
  (∀ k, Forall (λ st, occurrences l (live st) = k) starts →
        notified l s s' = k * N) ∧
  (notified l s s' ≤ N ↔ Forall (λ st, occurrences l (live st) = 1) starts).
Proof.
  intros Hwf Hreg; simpl.
  destruct (run_invocations body (es ++ [e]) s Hwf) as (t & Et & Ei).
  assert (notified l s (run body (es ++ [e]) s)
          = sum_list ((λ st, occurrences l (live st))
                        <$> cycle_starts body (es ++ [e]) s)) as En.
  { unfold notified. rewrite (since_app _ _ _ Et), Ei, occurrences_concat.
    by rewrite <- list_fmap_compose. }
  assert (Forall (λ x, 1 ≤ x)
            ((λ st, occurrences l (live st))
               <$> cycle_starts body (es ++ [e]) s)) as Hreg'
    by (by apply Forall_fmap).
  pose proof (sum_list_at_least_length _ Hreg') as Hge.
  pose proof (sum_list_at_most_length _ Hreg') as Hle.
  rewrite length_fmap, length_cycle_starts in Hge, Hle.
  split; [rewrite run_snoc; apply (handleMouseMove_snapshot body)|].
  split; [exact En|]. rewrite En. split; [|split].
  - split; [|exact Hge]. rewrite length_app; simpl; lia.
  - intros k Hk. rewrite <- En.
    unfold notified. rewrite (since_app _ _ _ Et), Ei.
    rewrite (occurrences_cycles l k) by done.
    by rewrite length_cycle_starts.
  - rewrite Hle. by rewrite Forall_fmap.
Qed.

(** Two events on the store with callback 7 subscribed twice: four
    notifications, two per event. *)
Lemma C5_event_sequence_per_registration_witness :
  let es := [move 1 1] ++ [move 3 4] in
  let s' := run example_body es same_callback_twice in
  let starts := cycle_starts example_body es same_callback_twice in
  let N := length es in
  deref s' (getSnapshot s') = Some (position_of (move 3 4)) ∧
  notified 7 same_callback_twice s'
    = sum_list ((λ st, occurrences 7 (live st)) <$> starts) ∧
  1 ≤ N ≤ notified 7 same_callback_twice s' ∧
  (∀ k, Forall (λ st, occurrences 7 (live st) = k) starts →
        notified 7 same_callback_twice s' = k * N) ∧
  (notified 7 same_callback_twice s' ≤ N
   ↔ Forall (λ st, occurrences 7 (live st) = 1) starts).
Proof.
  apply (C5_event_sequence_per_registration example_body same_callback_twice
           [move 1 1] (move 3 4) 7).
  - unfold wf; simpl; lia.
  - repeat constructor.
Defined.

(** The count behind the bounds: a callback with [k] registrations at the
    start of every cycle is notified [k] times per event, once for each
    registration. *)
Lemma notified_once_per_registration body s es l k :
  wf s →
  Forall (λ st, occurrences l (live st) = k) (cycle_starts body es s) →
  notified l s (run body es s) = k * length es.
Proof.
  intros Hwf Hreg.
  destruct (run_invocations body es s Hwf) as (t & Et & Ei).
  unfold notified. rewrite (since_app _ _ _ Et), Ei.
  rewrite (occurrences_cycles l k) by done. by rewrite length_cycle_starts.
Qed.

(** C9, as stated, fails: subscribing the same callback twice puts it in
    the listener array twice, and the first unsubscribe function removes
    both registrations. *)
Lemma C9_same_callback_twice :
  live same_callback_twice = [7; 7] ∧
  live (unsubscribe 7 same_callback_twice) = [].
Proof. split; reflexivity. Qed.

(** C9, amended: [subscribe] appends its argument to the listener array,
    one entry per call; the unsubscribe function it returns removes every
    entry identical to that callback and nothing else, the other entries
    keeping their order and multiplicity; so the array shrinks by the
    number of registrations of the callback, which is exactly one when
    the callback was subscribed once. *)
Theorem C9_unsubscribe_by_callback_identity l s :
  wf s →
  live (subscribe l s) = live s ++ [l] ∧
  live (unsubscribe l s) = filter (λ l', l' ≠ l) (live s) ∧
  occurrences l (live (unsubscribe l s)) = 0 ∧
  (∀ l', l' ≠ l →
         occurrences l' (live (unsubscribe l s)) = occurrences l' (live s)) ∧
  length (live (unsubscribe l s)) + occurrences l (live s) = length (live s).
Proof.
  intros Hwf. split; [by apply live_subscribe|].
  rewrite live_unsubscribe. split; [done|]. split; [|split].
  - apply occurrences_zero. rewrite list_elem_of_filter. tauto.
  - intros l' Hne. unfold occurrences. rewrite list_filter_filter.
    f_equal. apply list_filter_iff. intros a. split; [tauto|].
    intros ->. done.
  - unfold occurrences. generalize (live s) as ls.
    induction ls as [|a ls IH]; [done|].
    destruct (decide (a = l)) as [->|Hne].
    + rewrite filter_cons_False by tauto.
      rewrite filter_cons_True by done. simpl. lia.
    + rewrite filter_cons_True by done.
      rewrite (filter_cons_False (λ l', l' = l)) by done. simpl. lia.
Qed.

(** Two different callbacks: each unsubscribe function removes its own. *)
Lemma C9_unsubscribe_by_callback_identity_witness :
  live (subscribe 2 (subscribe 1 createMousePositionStore)) = [1; 2] ∧
  live (unsubscribe 1 two_listeners) = [2].
Proof.
  assert (wf (subscribe 1 createMousePositionStore)) as H1
    by (unfold wf; simpl; lia).
  assert (wf two_listeners) as H2 by (unfold wf; simpl; lia).
  split.
  - exact (proj1 (C9_unsubscribe_by_callback_identity 2
                    (subscribe 1 createMousePositionStore) H1)).
  - exact (proj1 (proj2 (C9_unsubscribe_by_callback_identity 1
                           two_listeners H2))).
Defined.

End MouseStoreFacts.

(** * Properties of the viewport size adapter *)

Module WindowSizeFacts.
Import WindowSize.

(** Two calls of [getSnapshot] never return the same reference, although
    the two objects have the same fields when the window did not change. *)
Lemma getSnapshot_fresh w h :
  let '(r1, h1) := getSnapshot w h in
  let '(r2, h2) := getSnapshot w h1 in
  same_snapshot r1 r2 = false ∧
  h2 !! r1 = Some {| width := innerWidth w; height := innerHeight w |} ∧
  h2 !! r2 = Some {| width := innerWidth w; height := innerHeight w |}.
Proof.
  unfold getSnapshot, same_snapshot; simpl. split; [|split].
  - apply bool_decide_eq_false. rewrite length_app; simpl. lia.
  - rewrite lookup_app_l by (rewrite length_app; simpl; lia).
    by rewrite lookup_app_r, Nat.sub_diag.
  - by rewrite lookup_app_r, Nat.sub_diag.
Qed.

(** C1 at the viewport size adapter: with the window at 800 x 600 and no
    event in between, two calls of [getSnapshot] return two different
    objects (with equal fields), so the snapshots are not equal by
    reference. *)
Theorem C1_windowSize_snapshot_not_cached :
  let w := mkWindow 800 600 [] in
  let '(r1, h1) := getSnapshot w [] in
  let '(r2, h2) := getSnapshot w h1 in
  same_snapshot r1 r2 = false ∧
  h2 !! r1 = Some {| width := 800; height := 600 |} ∧
  h2 !! r2 = Some {| width := 800; height := 600 |}.
Proof. exact (getSnapshot_fresh (mkWindow 800 600 []) []). Qed.

Lemma handler_registered cb w : cb ∈ resizeListeners (addEventListener cb w).
Proof.
  unfold addEventListener. case_decide; [done|]. simpl. set_solver.
Qed.

(** C8, as stated, fails: in a browser whose window is 1024 x 768 and has
    never been resized, the store-based hook reads {1024, 768}, and so does
    the effect-based hook once its effect has run. *)
Lemma C8_read_before_any_resize :
  let w := mkWindow 1024 768 [] in
  let '(r, h) := useWindowSize (Browser w) [] in
  h !! r = Some {| width := 1024; height := 768 |} ∧
  h !! r ≠ Some {| width := 0; height := 0 |} ∧
  render (mount (w, initialRender 1)) = {| width := 1024; height := 768 |}.
Proof. simpl. split; [done|]. split; [|done]. intros [=]. Qed.

(** C8, amended: {width: 0, height: 0} is what the server snapshot of the
    store-based hook and the first render of the effect-based hook return.
    In a browser the store-based hook reads the current inner size of the
    window, and the effect-based hook does so from its mount effect on,
    whether or not a resize event has occurred.  After a resize event
    reporting {nw, nh} (for instance {800, 600}) a read of the store-based
    hook, and a render of the effect-based hook whose effect has run
    before or after the event, return exactly {nw, nh}. *)
Theorem C8_window_size_reads w h0 hid nw nh :
  (let '(r, h) := useWindowSize Server h0 in
   h !! r = Some {| width := 0; height := 0 |}) ∧
  render (w, initialRender hid) = {| width := 0; height := 0 |} ∧
  (let '(r, h) := useWindowSize (Browser w) h0 in
   h !! r = Some {| width := innerWidth w; height := innerHeight w |}) ∧
  render (mount (w, initialRender hid))
    = {| width := innerWidth w; height := innerHeight w |} ∧
  (let '(r, h) := useWindowSize (Browser (resized nw nh w)) h0 in
   h !! r = Some {| width := nw; height := nh |}) ∧
  render (resizeEvent nw nh (mount (w, initialRender hid)))
    = {| width := nw; height := nh |} ∧
  render (mount (resizeEvent nw nh (w, initialRender hid)))
    = {| width := nw; height := nh |}.
Proof.
  split; [simpl; by rewrite lookup_app_r, Nat.sub_diag|].
  split; [done|].
  split; [simpl; by rewrite lookup_app_r, Nat.sub_diag|].
  split; [done|].
  split; [simpl; by rewrite lookup_app_r, Nat.sub_diag|].
  split.
  - unfold render; simpl. rewrite decide_True; [done|].
    apply handler_registered.
  - done.
Qed.

End WindowSizeFacts.

(** * Properties of the storage-backed value adapter *)

Module LocalStorageFacts.
Import LocalStorage.

Lemma truthy_nonempty raw : raw ≠ "" → truthy raw = true.
Proof. by destruct raw. Qed.

Section Read.

Context {T : Type}.
Variable key : string.
Variable d : Default T.
Variable deserialize : string → Completion T.

Lemma resolve_outcome h : resolve d h = (outcome d, h).
Proof. by destruct d. Qed.

(** *** The read of the store-based hook, case by case *)

Lemma getStorageValue_absent h :
  localStorage h !! key = None →
  getStorageValue key d deserialize h = (outcome d, h).
Proof.
  intros E. unfold getStorageValue, mbind, M_bind, getItem; simpl.
  rewrite E; simpl. apply resolve_outcome.
Qed.

(** An empty string is falsy: [deserialize] is not called on it. *)
Lemma getStorageValue_empty h :
  localStorage h !! key = Some "" →
  getStorageValue key d deserialize h = (outcome d, h).
Proof.
  intros E. unfold getStorageValue, mbind, M_bind, getItem; simpl.
  rewrite E; simpl. apply resolve_outcome.
Qed.

Lemma getStorageValue_stored h raw v :
  localStorage h !! key = Some raw → raw ≠ "" → deserialize raw = Return v →
  getStorageValue key d deserialize h = (Return v, h).
Proof.
  intros E Hne Hd. unfold getStorageValue, mbind, M_bind, getItem; simpl.
  rewrite E, (truthy_nonempty raw Hne); simpl.
  unfold try_catch, mbind, M_bind, lift. by rewrite Hd.
Qed.

Lemma getStorageValue_corrupt h raw e :
  localStorage h !! key = Some raw → raw ≠ "" → deserialize raw = Throw e →
  getStorageValue key d deserialize h
  = (outcome d,
     mkHost (localStorage h) (console h ++ [(deserializeMessage key, e)])
            (storageListeners h) (dispatched h)).
Proof.
  intros E Hne Hd. unfold getStorageValue, mbind, M_bind, getItem; simpl.
  rewrite E, (truthy_nonempty raw Hne); simpl.
  unfold try_catch, mbind, M_bind, lift. rewrite Hd; simpl.
  apply resolve_outcome.
Qed.

(** *** The initializer of the effect-based hook *)

Lemma initialState_corrupt h raw e :
  localStorage h !! key = Some raw → raw ≠ "" → deserialize raw = Throw e →
  initialState key d deserialize h
  = (outcome d,
     mkHost (delete key (localStorage h)) (console h)
            (storageListeners h) (dispatched h)).
Proof.
  intros E Hne Hd. unfold initialState, mbind, M_bind, getItem; simpl.
  rewrite E, (truthy_nonempty raw Hne); simpl.
  unfold try_catch, mbind, M_bind, lift. rewrite Hd; simpl.
  apply resolve_outcome.
Qed.

(** An empty string is falsy for the initializer too. *)
Lemma initialState_empty h :
  localStorage h !! key = Some "" →
  initialState key d deserialize h = (outcome d, h).
Proof.
  intros E. unfold initialState, mbind, M_bind, getItem; simpl.
  rewrite E; simpl. apply resolve_outcome.
Qed.

End Read.

Section Write.

Context {T : Type}.
Variable key : string.
Variable serialize : T → Completion string.

Lemma setValue_new value v raw h :
  serialize v = Return raw →
  setValue key serialize value (NewValue v) h
  = (Return (),
     mkHost (<[key := raw]> (localStorage h)) (console h)
            (storageListeners h) (dispatched h ++ storageListeners h)).
Proof.
  intros E. unfold setValue, mbind, M_bind, mret, M_ret, lift; simpl.
  by rewrite E.
Qed.

(** A written value is read back when the pair round-trips it and its
    encoding is not the empty string. *)
Lemma read_after_setValue d deserialize value v raw h :
  serialize v = Return raw → raw ≠ "" → deserialize raw = Return v →
  ∃ h', setValue key serialize value (NewValue v) h = (Return (), h') ∧
        localStorage h' !! key = Some raw ∧
        fst (getStorageValue key d deserialize h') = Return v.
Proof.
  intros Es Hne Ed. eexists. split; [by apply setValue_new|].
  simpl. split; [by rewrite lookup_insert_eq|].
  erewrite getStorageValue_stored; [done| |done|done].
  simpl. by rewrite lookup_insert_eq.
Qed.

End Write.

(** *** The JSON pair on strings *)

Lemma parseChars_quoteChar c tail :
  parseChars (quoteChar c +:+ tail) = prepend c (parseChars tail).
Proof.
  destruct c as [[] [] [] [] [] [] [] []]; reflexivity.
Qed.

Lemma append_assoc (a b c : string) : (a +:+ b) +:+ c = a +:+ (b +:+ c).
Proof.
  induction a as [|x a IH]; [done|].
  change (String x ((a +:+ b) +:+ c) = String x (a +:+ (b +:+ c))).
  by rewrite IH.
Qed.

Lemma parseChars_quoteChars v : ∀ rest,
  parseChars (quoteChars v +:+ String quotation_mark rest) = Some (v, rest).
Proof.
  induction v as [|c v IH]; intros rest; [done|].
  simpl quoteChars. rewrite append_assoc, parseChars_quoteChar, IH. done.
Qed.

Example QuoteJSONString_dark :
  QuoteJSONString "dark" = String quotation_mark ("dark" +:+ String quotation_mark "").
Proof. reflexivity. Qed.

Example JSON_parse_escapes :
  JSON_parse (String quotation_mark
                ("a" +:+ escaped "n" +:+ escaped "u" +:+ "0041"
                     +:+ String quotation_mark " "))
  = Return (String "a" (String "010" "A")).
Proof. reflexivity. Qed.

Example JSON_parse_unterminated :
  JSON_parse (String quotation_mark "dark") = Throw "SyntaxError".
Proof. reflexivity. Qed.

(** [JSON.parse(JSON.stringify(v)) = v] for every string. *)
Lemma JSON_round_trip v : JSON_parse (QuoteJSONString v) = Return v.
Proof.
  unfold JSON_parse, QuoteJSONString. simpl skipWhitespace.
  change (code quotation_mark =? 34)%N with true; simpl.
  by rewrite parseChars_quoteChars.
Qed.

Lemma QuoteJSONString_nonempty v : QuoteJSONString v ≠ "".
Proof. done. Qed.

(** ** The claims about the storage-backed value *)

(** C6, as stated, fails on the reporting: the effect-based hook catches
    the exception of [JSON.parse] on the stored entry "{" without any
    report (it removes the entry instead), and the store-based hook does
    not even call [deserialize] on a stored empty string, on which
    [JSON.parse] throws, so it has nothing to report either. *)
Lemma C6_failure_not_reported :
  (JSON_parse "{" = Throw "SyntaxError" ∧
   let '(r, h') := initialState "theme" (Literal "light") JSON_parse
                     (hostWith "theme" "{") in
   r = Return "light" ∧ console h' = [] ∧ localStorage h' !! "theme" = None) ∧
  (JSON_parse "" = Throw "SyntaxError" ∧
   let '(r, h') := getStorageValue "theme" (Literal "light") JSON_parse
                     (hostWith "theme" "") in
   r = Return "light" ∧ console h' = []).
Proof.
  split; (split; [reflexivity|]).
  - rewrite (initialState_corrupt "theme" (Literal "light") JSON_parse
               (hostWith "theme" "{") "{" "SyntaxError");
      [|by apply lookup_singleton_eq|done|reflexivity].
    split; [done|]. split; [done|]. simpl. apply lookup_delete_eq.
  - rewrite (getStorageValue_empty "theme" (Literal "light") JSON_parse
               (hostWith "theme" ""));
      [|by apply lookup_singleton_eq].
    done.
Qed.

(** C6, amended: when a non-empty raw entry is stored under the key and
    [deserialize] throws on it, neither hook lets that exception reach the
    caller, and both end as the final [return] of the default does (the
    default value, or the result of invoking the producer).  The
    store-based hook reports the failure with [console.error] and leaves
    the entry in place; the effect-based hook reports nothing and removes
    the entry.  A stored empty string is treated as absent by both hooks:
    whatever [deserialize] is, it is not called, nothing is reported or
    removed, and the read ends as the default does. *)
Theorem C6_corrupt_entry_falls_back {T} key (d : Default T) deserialize h raw e :
  localStorage h !! key = Some raw → deserialize raw = Throw e →
  (raw ≠ "" →
   (let '(r, h') := getStorageValue key d deserialize h in
    r = outcome d ∧
    console h' = console h ++ [(deserializeMessage key, e)] ∧
    localStorage h' = localStorage h) ∧
   (let '(r, h') := initialState key d deserialize h in
    r = outcome d ∧
    console h' = console h ∧
    localStorage h' = delete key (localStorage h))) ∧
  (raw = "" →
   ∀ deserialize' : string → Completion T,
     getStorageValue key d deserialize' h = (outcome d, h) ∧
     initialState key d deserialize' h = (outcome d, h)).
Proof.
  intros E Hd. split.
  - intros Hne. split.
    + by rewrite (getStorageValue_corrupt key d deserialize h raw e).
    + by rewrite (initialState_corrupt key d deserialize h raw e).
  - intros -> deserialize'. split.
    + by apply getStorageValue_empty.
    + by apply initialState_empty.
Qed.

(** The entry "{" under "theme", on which the JSON parser throws, and the
    empty entry under "theme". *)
Lemma C6_corrupt_entry_falls_back_witness :
  ((let '(r, h') := getStorageValue "theme" (Literal "light") JSON_parse
                      (hostWith "theme" "{") in
    r = Return "light" ∧
    console h' = [(deserializeMessage "theme", "SyntaxError")] ∧
    localStorage h' = {[ "theme" := "{" ]}) ∧
   (let '(r, h') := initialState "theme" (Literal "light") JSON_parse
                      (hostWith "theme" "{") in
    r = Return "light" ∧
    console h' = [] ∧
    localStorage h' = delete "theme" {[ "theme" := "{" ]})) ∧
  (getStorageValue "theme" (Literal "light") JSON_parse (hostWith "theme" "")
     = (Return "light", hostWith "theme" "") ∧
   initialState "theme" (Literal "light") JSON_parse (hostWith "theme" "")
     = (Return "light", hostWith "theme" "")).
Proof.
  split.
  - apply (C6_corrupt_entry_falls_back "theme" (Literal "light") JSON_parse
             (hostWith "theme" "{") "{" "SyntaxError").
    + apply lookup_singleton_eq.
    + reflexivity.
    + discriminate.
  - apply (proj2 (C6_corrupt_entry_falls_back "theme" (Literal "light")
                    JSON_parse (hostWith "theme" "") "" "SyntaxError"
                    (lookup_singleton_eq _ _) eq_refl) eq_refl JSON_parse).
Defined.

(** C7: with key "theme", default "light" and the JSON pair, a read with no
    stored entry returns "light"; [setValue("dark")] returns normally, the
    raw entry it leaves under "theme" is the JSON encoding of "dark" (the
    text dark between quotation marks), which [JSON.parse] maps back to
    "dark", and a read after it returns "dark". *)
Theorem C7_theme_round_trip h value :
  localStorage h !! "theme" = None →
  fst (getStorageValue "theme" (Literal "light") JSON_parse h) = Return "light" ∧
  ∃ h', setValue "theme" JSON_stringify value (NewValue "dark") h = (Return (), h') ∧
        fst (getStorageValue "theme" (Literal "light") JSON_parse h') = Return "dark" ∧
        localStorage h' !! "theme" = Some (QuoteJSONString "dark") ∧
        QuoteJSONString "dark"
          = String quotation_mark ("dark" +:+ String quotation_mark "") ∧
        JSON_parse (QuoteJSONString "dark") = Return "dark".
Proof.
  intros E. split.
  - by rewrite getStorageValue_absent.
  - destruct (read_after_setValue "theme" JSON_stringify (Literal "light")
                JSON_parse value "dark" (QuoteJSONString "dark") h)
      as (h' & Hw & Hl & Hr); [done|done|apply JSON_round_trip|].
    exists h'. split; [done|]. split; [done|]. split; [done|].
    split; [reflexivity|apply JSON_round_trip].
Qed.

(** Starting from an empty storage. *)
Lemma C7_theme_round_trip_witness :
  fst (getStorageValue "theme" (Literal "light") JSON_parse emptyHost)
    = Return "light" ∧
  ∃ h', setValue "theme" JSON_stringify "light" (NewValue "dark") emptyHost
          = (Return (), h') ∧
        fst (getStorageValue "theme" (Literal "light") JSON_parse h') = Return "dark" ∧
        localStorage h' !! "theme" = Some (QuoteJSONString "dark") ∧
        QuoteJSONString "dark"
          = String quotation_mark ("dark" +:+ String quotation_mark "") ∧
        JSON_parse (QuoteJSONString "dark") = Return "dark".
Proof.
  apply (C7_theme_round_trip emptyHost "light"). apply lookup_empty.
Defined.

End LocalStorageFacts.

(** * Further properties of the mouse-position store *)

Module StoreProperties.
Import MouseStore MouseStoreFacts.

Section Callbacks.

Variable body : Listener → list Obs → list Call.

(** ** The object heap only grows *)

Lemma step_objs o s :
  ∃ new, objs (step body s o) = objs s ++ new.
Proof.
  destruct o as [[l|l|]|e]; simpl; try (exists []; by rewrite app_nil_r).
  destruct (handleMouseMove_cache body e s) as (_ & _ & _ & Eo & _).
  by exists [position_of e].
Qed.

Lemma exec_objs ops : ∀ s, ∃ new, objs (exec body ops s) = objs s ++ new.
Proof.
  unfold exec. induction ops as [|o ops IH]; intros s; simpl.
  - exists []. by rewrite app_nil_r.
  - destruct (step_objs o s) as [n1 E1].
    destruct (IH (step body s o)) as [n2 E2].
    exists (n1 ++ n2). by rewrite E2, E1, app_assoc.
Qed.

Lemma wf_position_step o s : wf_position s → wf_position (step body s o).
Proof.
  unfold wf_position. destruct o as [[l|l|]|e]; simpl; try done.
  intros _. destruct (handleMouseMove_cache body e s) as (_ & _ & _ & -> & ->).
  rewrite length_app; simpl; lia.
Qed.

Lemma wf_position_exec ops : ∀ s, wf_position s → wf_position (exec body ops s).
Proof.
  unfold exec. induction ops as [|o ops IH]; simpl; auto using wf_position_step.
Qed.

Lemma live_subscribeAll ls : ∀ s,
  wf s → wf (subscribeAll ls s) ∧ live (subscribeAll ls s) = live s ++ ls.
Proof.
  unfold subscribeAll. induction ls as [|l ls IH]; intros s Hwf; simpl.
  - by rewrite app_nil_r.
  - destruct (IH (subscribe l s)) as [W E]; [by apply wf_subscribe|].
    split; [done|]. rewrite E, live_subscribe by done.
    by rewrite <- app_assoc.
Qed.

End Callbacks.

(** X1: Whatever a client does with a fresh store, the variable [listeners]
    refers to an allocated array and [getSnapshot] returns a reference to
    an allocated position object, never a dangling one. *)
Theorem reachable_store_well_formed body ops :
  let s := exec body ops createMousePositionStore in
  wf s ∧ wf_position s ∧ ∃ p, deref s (getSnapshot s) = Some p.
Proof.
  simpl.
  assert (wf_position (exec body ops createMousePositionStore)) as Hp.
  { apply wf_position_exec. unfold wf_position; simpl; lia. }
  split; [apply wf_exec, wf_create|]. split; [done|].
  apply lookup_lt_is_Some_2. exact Hp.
Qed.

(** X2: A position object that [getSnapshot] has handed out is never changed
    afterwards: whatever calls and events follow, the reference still
    leads to the same coordinates. *)
Theorem snapshot_objects_are_immutable body ops s r p :
  deref s r = Some p → deref (exec body ops s) r = Some p.
Proof.
  intros H. unfold deref in *.
  destruct (exec_objs body ops s) as [new ->].
  by apply lookup_app_l_Some.
Qed.

Lemma snapshot_objects_are_immutable_witness :
  deref (exec example_body [MouseMove (move 3 4); ClientCall (Unsubscribe 1)]
           two_listeners) 0
  = Some {| x := 0; y := 0 |}.
Proof.
  apply (snapshot_objects_are_immutable example_body
           [MouseMove (move 3 4); ClientCall (Unsubscribe 1)] two_listeners 0).
  reflexivity.
Defined.

(** X3: The snapshot reference changes exactly at mouse events: no sequence of
    subscribe, unsubscribe and getSnapshot calls changes it, and every
    event installs a reference different from the previous one, also when
    the event carries the same coordinates as the event before. *)
Theorem snapshot_changes_exactly_at_events body ops calls e :
  let s := exec body ops createMousePositionStore in
  getSnapshot (exec body (ClientCall <$> calls) s) = getSnapshot s ∧
  getSnapshot (handleMouseMove body e s) ≠ getSnapshot s ∧
  getSnapshot (handleMouseMove body e (handleMouseMove body e s))
    ≠ getSnapshot (handleMouseMove body e s).
Proof.
  simpl. set (s := exec body ops createMousePositionStore).
  assert (wf_position s) as Hp.
  { apply wf_position_exec. unfold wf_position; simpl; lia. }
  split; [apply getSnapshot_stable|].
  destruct (handleMouseMove_cache body e s) as (_ & _ & _ & Eo & Ec).
  destruct (handleMouseMove_cache body e (handleMouseMove body e s))
    as (_ & _ & _ & _ & Ec').
  unfold getSnapshot, wf_position in *. rewrite Ec', Ec, Eo.
  rewrite length_app; simpl. split; lia.
Qed.

(** X4: Subscribing a callback that is not registered and calling the returned
    unsubscribe function leaves a store that no client can tell from the
    one before, whatever happens afterwards. *)
Theorem subscribe_then_unsubscribe body l s ops :
  wf s → l ∉ live s →
  live (unsubscribe l (subscribe l s)) = live s ∧
  observably_equal (exec body ops (unsubscribe l (subscribe l s)))
                   (exec body ops s).
Proof.
  intros Hwf Hnot.
  assert (live (unsubscribe l (subscribe l s)) = live s) as E.
  { rewrite live_unsubscribe, live_subscribe by done.
    rewrite filter_app, filter_absent by done.
    rewrite filter_cons_False by tauto. by rewrite app_nil_r. }
  split; [done|]. apply similar_exec.
  split; [apply wf_unsubscribe|]. split; [done|].
  by split.
Qed.

Lemma subscribe_then_unsubscribe_witness :
  live (unsubscribe 5 (subscribe 5 two_listeners)) = live two_listeners ∧
  observably_equal
    (exec example_body [MouseMove (move 3 4)]
       (unsubscribe 5 (subscribe 5 two_listeners)))
    (exec example_body [MouseMove (move 3 4)] two_listeners).
Proof.
  apply (subscribe_then_unsubscribe example_body 5 two_listeners
           [MouseMove (move 3 4)]).
  - unfold wf; simpl; lia.
  - intros H%list_elem_of_In. vm_compute in H. intuition discriminate.
Defined.

(** X5: Calling the unsubscribe function of a callback that is not registered
    (never subscribed, or already removed) has no observable effect, now
    or after any further calls and events. *)
Theorem unsubscribe_unregistered_is_noop body l s ops :
  wf s → l ∉ live s →
  observably_equal (exec body ops (unsubscribe l s)) (exec body ops s).
Proof. intros Hwf Hnot. by apply unsubscribe_absent. Qed.

Lemma unsubscribe_unregistered_is_noop_witness :
  observably_equal
    (exec example_body [MouseMove (move 3 4)] (unsubscribe 9 two_listeners))
    (exec example_body [MouseMove (move 3 4)] two_listeners).
Proof.
  apply (unsubscribe_unregistered_is_noop example_body 9 two_listeners
           [MouseMove (move 3 4)]).
  - unfold wf; simpl; lia.
  - intros H%list_elem_of_In. vm_compute in H. intuition discriminate.
Defined.

(** X6: A callback that has [k] registrations at the start of every cycle of a
    run of [N] events is invoked [k * N] times: a callback subscribed twice
    is called twice per event. *)
Theorem notified_per_registration body s es l k :
  wf s →
  Forall (λ st, occurrences l (live st) = k) (cycle_starts body es s) →
  notified l s (run body es s) = k * length es.
Proof. intros Hwf Hreg. by apply notified_once_per_registration. Qed.

Lemma notified_per_registration_witness :
  notified 7 same_callback_twice
    (run example_body [move 1 1; move 3 4] same_callback_twice) = 2 * 2.
Proof.
  apply (notified_per_registration example_body same_callback_twice
           [move 1 1; move 3 4] 7 2).
  - unfold wf; simpl; lia.
  - repeat constructor.
Defined.

(** X7: On a fresh store a mouse event invokes the listeners in the order
    of the subscribe calls, one invocation per call, for callbacks that
    return normally and use the store only through subscribe, unsubscribe
    and getSnapshot (a callback that throws would end the iteration). *)
Theorem notified_in_subscription_order body ls e :
  let s := subscribeAll ls createMousePositionStore in
  invocations (since s (handleMouseMove body e s)) = ls.
Proof.
  simpl. destruct (live_subscribeAll ls createMousePositionStore wf_create)
    as [W E].
  rewrite handleMouseMove_invocations by done. by rewrite E.
Qed.

End StoreProperties.

(** * Further properties of the viewport size adapter *)

Module WindowSizeProperties.
Import WindowSize WindowSizeFacts.

Lemma resizeEvent_listeners nw nh st :
  resizeListeners (resizeEvent nw nh st).1 = resizeListeners st.1 ∧
  handler (resizeEvent nw nh st).2 = handler st.2.
Proof. destruct st as [w k]; simpl. split; [done|]. by case_decide. Qed.

Lemma resizeEvent_registered nw nh st :
  handler st.2 ∈ resizeListeners st.1 →
  windowSize (resizeEvent nw nh st).2 = {| width := nw; height := nh |} ∧
  innerWidth (resizeEvent nw nh st).1 = nw ∧
  innerHeight (resizeEvent nw nh st).1 = nh.
Proof. destruct st as [w k]; simpl. intros H. by rewrite decide_True. Qed.

Lemma resizeEvent_unregistered nw nh st :
  handler st.2 ∉ resizeListeners st.1 →
  windowSize (resizeEvent nw nh st).2 = windowSize st.2.
Proof. destruct st as [w k]; simpl. intros H. by rewrite decide_False. Qed.

Lemma resizeEvents_tracking evs : ∀ st,
  handler st.2 ∈ resizeListeners st.1 →
  windowSize st.2 = {| width := innerWidth st.1; height := innerHeight st.1 |} →
  let st' := resizeEvents evs st in
  handler st'.2 ∈ resizeListeners st'.1 ∧
  windowSize st'.2 = {| width := innerWidth st'.1; height := innerHeight st'.1 |}.
Proof.
  unfold resizeEvents. induction evs as [|[nw nh] evs IH]; intros st Hreg Hsz; simpl.
  - done.
  - apply IH.
    + destruct (resizeEvent_listeners nw nh st) as [-> ->]. done.
    + destruct (resizeEvent_registered nw nh st Hreg) as (-> & -> & ->). done.
Qed.

Lemma resizeEvents_ignored evs : ∀ st,
  handler st.2 ∉ resizeListeners st.1 →
  windowSize (resizeEvents evs st).2 = windowSize st.2.
Proof.
  unfold resizeEvents. induction evs as [|[nw nh] evs IH]; intros st Hnot; simpl.
  - done.
  - rewrite IH.
    + by apply resizeEvent_unregistered.
    + destruct (resizeEvent_listeners nw nh st) as [-> ->]. done.
Qed.

(** X8: Once its effect has run, the effect-based hook renders the current
    inner size of the window after any burst of resize events: the fields
    of the object the store-based [getSnapshot] would return for that
    window, and after one more event exactly what that event reports. *)
Theorem mounted_hook_tracks_window w hid evs h0 :
  let st := resizeEvents evs (mount (w, initialRender hid)) in
  render st = {| width := innerWidth st.1; height := innerHeight st.1 |} ∧
  (let '(r, h) := getSnapshot st.1 h0 in h !! r = Some (render st)) ∧
  ∀ nw nh, render (resizeEvent nw nh st) = {| width := nw; height := nh |}.
Proof.
  destruct (resizeEvents_tracking evs (mount (w, initialRender hid)))
    as [Hreg Hsz].
  { simpl. apply handler_registered. }
  { simpl. unfold addEventListener. by case_decide. }
  set (st := resizeEvents evs (mount (w, initialRender hid))) in *.
  cbv zeta. unfold render. split; [done|]. split.
  - unfold getSnapshot. rewrite lookup_app_r, Nat.sub_diag by done.
    simpl. by rewrite Hsz.
  - intros nw nh. by destruct (resizeEvent_registered nw nh _ Hreg) as (-> & _).
Qed.

(** X9: After the cleanup of its effect the hook no longer follows the
    window: whatever resize events occur, it keeps rendering the size it
    had when it was unmounted. *)
Theorem unmounted_hook_ignores_resizes st evs :
  render (resizeEvents evs (unmount st)) = render st.
Proof.
  unfold render. rewrite resizeEvents_ignored.
  - by destruct st.
  - destruct st as [w k]; simpl. rewrite list_elem_of_filter. tauto.
Qed.

(** X10: The window keeps at most one registration per callback: subscribing a
    callback that is already subscribed changes nothing, and after the
    unsubscribe function the callback is not registered while all other
    callbacks are, in their order. *)
Theorem window_subscription_by_callback cb w :
  subscribe cb (subscribe cb w) = subscribe cb w ∧
  resizeListeners (unsubscribe cb (subscribe cb w))
    = filter (λ l, l ≠ cb) (resizeListeners w) ∧
  cb ∉ resizeListeners (unsubscribe cb (subscribe cb w)).
Proof.
  split; [|split].
  - unfold subscribe. unfold addEventListener at 1.
    rewrite decide_True; [done|]. apply handler_registered.
  - unfold unsubscribe, subscribe, addEventListener; simpl.
    case_decide; simpl; [done|].
    rewrite filter_app, filter_cons_False by tauto. by rewrite app_nil_r.
  - unfold unsubscribe; simpl. rewrite list_elem_of_filter. tauto.
Qed.

End WindowSizeProperties.

(** * Properties of the effect-based pointer position hook *)

Module PointerEffectProperties.
Import MousePositionEffect.

Lemma mouseMoveEvent_frame st e :
  (mouseMoveEvent st e).1 = st.1 ∧ handler (mouseMoveEvent st e).2 = handler st.2.
Proof. destruct st as [w k]; simpl. split; [done|]. by case_decide. Qed.

Lemma mouseMoveEvents_frame es : ∀ st,
  (mouseMoveEvents es st).1 = st.1 ∧
  handler (mouseMoveEvents es st).2 = handler st.2.
Proof.
  unfold mouseMoveEvents. induction es as [|e es IH]; intros st; simpl; [done|].
  destruct (IH (mouseMoveEvent st e)) as [-> ->]. apply mouseMoveEvent_frame.
Qed.

Lemma mouseMoveEvents_ignored es : ∀ st,
  handler st.2 ∉ mousemoveListeners st.1 →
  mousePosition (mouseMoveEvents es st).2 = mousePosition st.2.
Proof.
  unfold mouseMoveEvents. induction es as [|e es IH]; intros st Hnot; simpl.
  - done.
  - destruct (mouseMoveEvent_frame st e) as [E1 E2].
    rewrite IH by (by rewrite E1, E2).
    destruct st as [w k]; simpl in *. by rewrite decide_False.
Qed.

Lemma mount_registers st : handler (mount st).2 ∈ mousemoveListeners (mount st).1.
Proof.
  destruct st as [w k]; simpl. unfold addEventListener.
  case_decide; [done|]. simpl. set_solver.
Qed.

(** X11: While the hook is mounted it renders the coordinates of the last
    mouse event of any non-empty sequence of events. *)
Theorem mounted_hook_renders_last_event st es e :
  render (mouseMoveEvents (es ++ [e]) (mount st)) = MouseStore.position_of e.
Proof.
  unfold mouseMoveEvents. rewrite foldl_app; simpl.
  fold (mouseMoveEvents es (mount st)).
  destruct (mouseMoveEvents_frame es (mount st)) as [E1 E2].
  pose proof (mount_registers st) as Hreg. rewrite <- E1, <- E2 in Hreg.
  destruct (mouseMoveEvents es (mount st)) as [w k]; simpl in *.
  unfold render; simpl. by rewrite decide_True.
Qed.

(** X12: The effect does not read the pointer position when it runs: the mouse
    events that occur before the effect has registered its handler are
    lost, and the hook keeps rendering {x: 0, y: 0} after it is mounted,
    until the next event. *)
Theorem events_before_mount_are_lost w hid es :
  hid ∉ mousemoveListeners w →
  render (mount (mouseMoveEvents es (w, initialRender hid)))
  = {| MouseStore.x := 0; MouseStore.y := 0 |}.
Proof.
  intros Hnot. unfold render.
  pose proof (mouseMoveEvents_ignored es (w, initialRender hid) Hnot) as E.
  destruct (mouseMoveEvents es (w, initialRender hid)) as [w' k']; simpl in *.
  done.
Qed.

Lemma events_before_mount_are_lost_witness :
  render (mount (mouseMoveEvents [MouseStore.move 3 4]
                   (mkWindow [], initialRender 1)))
  = {| MouseStore.x := 0; MouseStore.y := 0 |}.
Proof.
  apply (events_before_mount_are_lost (mkWindow []) 1 [MouseStore.move 3 4]).
  simpl. apply not_elem_of_nil.
Defined.

(** X13: After the cleanup of the effect no mouse event changes what the hook
    renders. *)
Theorem unmounted_hook_ignores_events st es :
  render (mouseMoveEvents es (unmount st)) = render st.
Proof.
  unfold render. rewrite mouseMoveEvents_ignored.
  - by destruct st.
  - destruct st as [w k]; simpl. rewrite list_elem_of_filter. tauto.
Qed.

End PointerEffectProperties.

(** * Further properties of the storage-backed value adapter *)

Module StorageProperties.
Import LocalStorage LocalStorageFacts.

Lemma afterReads_S {T} (read : M T) n h :
  afterReads read (S n) h = snd (read (afterReads read n h)).
Proof. done. Qed.

(** X14: A value written with [setValue] is what the next read returns, for
    every pair of [serialize] and [deserialize] that round-trips the value
    through a non-empty string; the entry stored is that string. *)
Theorem written_value_is_read_back {T} key (serialize : T → Completion string)
    d deserialize value v raw h :
  serialize v = Return raw → raw ≠ "" → deserialize raw = Return v →
  ∃ h', setValue key serialize value (NewValue v) h = (Return (), h') ∧
        localStorage h' !! key = Some raw ∧
        fst (getStorageValue key d deserialize h') = Return v.
Proof. intros Es Hne Ed. by apply read_after_setValue. Qed.

Lemma written_value_is_read_back_witness :
  ∃ h', setValue "theme" JSON_stringify "light" (NewValue "dark") emptyHost
          = (Return (), h') ∧
        localStorage h' !! "theme" = Some (QuoteJSONString "dark") ∧
        fst (getStorageValue "theme" (Literal "light") JSON_parse h')
          = Return "dark".
Proof.
  apply (written_value_is_read_back "theme" JSON_stringify (Literal "light")
           JSON_parse "light" "dark" (QuoteJSONString "dark") emptyHost).
  - reflexivity.
  - discriminate.
  - reflexivity.
Defined.

(** X15: A value whose encoding is the empty string is stored but not read
    back: the entry is falsy, [deserialize] is not called, and the read
    ends as the default does. *)
Theorem empty_encoding_reads_default {T} key (serialize : T → Completion string)
    (d : Default T) (deserialize : string → Completion T) value v h :
  serialize v = Return "" →
  ∃ h', setValue key serialize value (NewValue v) h = (Return (), h') ∧
        localStorage h' !! key = Some "" ∧
        getStorageValue key d deserialize h' = (outcome d, h').
Proof.
  intros Es. eexists. split; [by apply setValue_new|].
  simpl. split; [by rewrite lookup_insert_eq|].
  apply getStorageValue_empty. simpl. by rewrite lookup_insert_eq.
Qed.

Lemma empty_encoding_reads_default_witness :
  ∃ h', setValue "note" Return "draft" (NewValue "") emptyHost = (Return (), h') ∧
        localStorage h' !! "note" = Some "" ∧
        getStorageValue "note" (Literal "draft") Return h' = (Return "draft", h').
Proof.
  apply (empty_encoding_reads_default "note" Return (Literal "draft") Return
           "draft" "" emptyHost).
  reflexivity.
Defined.

(** X16: A functional update is computed from the value of the render that
    created [setValue], not from what is stored: two such updates in a row
    from the same render store [f(value)] both times. *)
Theorem updater_uses_rendered_value {T} key (serialize : T → Completion string)
    value f v' raw h :
  f value = Return v' → serialize v' = Return raw →
  let h1 := snd (setValue key serialize value (Updater f) h) in
  let h2 := snd (setValue key serialize value (Updater f) h1) in
  localStorage h1 !! key = Some raw ∧ localStorage h2 = localStorage h1.
Proof.
  intros Ef Es.
  assert (∀ h0, setValue key serialize value (Updater f) h0
                = (Return (),
                   mkHost (<[key := raw]> (localStorage h0)) (console h0)
                          (storageListeners h0)
                          (dispatched h0 ++ storageListeners h0))) as E.
  { intros h0. unfold setValue, mbind, M_bind, mret, M_ret, lift; simpl.
    by rewrite Ef, Es. }
  simpl. rewrite !E; simpl. split; [by rewrite lookup_insert_eq|].
  by rewrite insert_insert_eq.
Qed.

Lemma updater_uses_rendered_value_witness :
  let bang := λ v : string, Return (v +:+ "!") in
  let h1 := snd (setValue "theme" JSON_stringify "light" (Updater bang) emptyHost) in
  let h2 := snd (setValue "theme" JSON_stringify "light" (Updater bang) h1) in
  localStorage h1 !! "theme" = Some (QuoteJSONString "light!") ∧
  localStorage h2 = localStorage h1.
Proof.
  apply (updater_uses_rendered_value "theme" JSON_stringify "light"
           (λ v : string, Return (v +:+ "!")) "light!"
           (QuoteJSONString "light!") emptyHost);
    reflexivity.
Defined.

(** X17: When the updater or [serialize] throws, [setValue] throws the same
    value and has done nothing: nothing is stored and no storage event is
    dispatched. *)
Theorem failed_setValue_changes_nothing {T} key (serialize : T → Completion string)
    value newValue e h :
  (match newValue with
   | Updater f => f value = Throw e ∨ ∃ v, f value = Return v ∧ serialize v = Throw e
   | NewValue v => serialize v = Throw e
   end) →
  setValue key serialize value newValue h = (Throw e, h).
Proof.
  unfold setValue, mbind, M_bind, mret, M_ret, lift.
  destruct newValue as [v|f]; simpl.
  - by intros ->.
  - intros [->|(v & -> & ->)]; done.
Qed.

Lemma failed_setValue_changes_nothing_witness :
  setValue "theme" (λ _ : string, Throw "TypeError") "light" (NewValue "dark")
    (hostWith "theme" "x")
  = (Throw "TypeError", hostWith "theme" "x").
Proof.
  apply (failed_setValue_changes_nothing "theme"
           (λ _ : string, Throw "TypeError") "light" (NewValue "dark")
           "TypeError" (hostWith "theme" "x")).
  reflexivity.
Defined.

(** X18: A read of the store-based hook never writes: whatever is stored and
    however [deserialize] ends, the storage, the registered listeners and
    the dispatched events are as before, and the console has only grown. *)
Theorem read_never_writes_storage {T} key (d : Default T) deserialize h :
  let '(r, h') := getStorageValue key d deserialize h in
  localStorage h' = localStorage h ∧
  storageListeners h' = storageListeners h ∧
  dispatched h' = dispatched h ∧
  console h `prefix_of` console h'.
Proof.
  destruct (localStorage h !! key) as [raw|] eqn:E.
  - destruct (decide (raw = "")) as [->|Hne].
    + by rewrite getStorageValue_empty.
    + destruct (deserialize raw) as [v|e] eqn:Ed.
      * by rewrite (getStorageValue_stored key d deserialize h raw v).
      * rewrite (getStorageValue_corrupt key d deserialize h raw e) by done.
        simpl. repeat split. by apply prefix_app_r.
  - by rewrite getStorageValue_absent.
Qed.

(** X19: A corrupt entry is reported again on every read: after [n] reads the
    console holds [n] more error messages, and the entry is still there. *)
Theorem corrupt_entry_reported_on_every_read {T} key (d : Default T)
    deserialize h raw e n :
  localStorage h !! key = Some raw → raw ≠ "" → deserialize raw = Throw e →
  let h' := afterReads (getStorageValue key d deserialize) n h in
  console h' = console h ++ replicate n (deserializeMessage key, e) ∧
  localStorage h' = localStorage h.
Proof.
  intros E Hne Hd. simpl. induction n as [|n [IHc IHs]].
  - simpl. by rewrite app_nil_r.
  - rewrite afterReads_S.
    rewrite (getStorageValue_corrupt key d deserialize _ raw e);
      [|by rewrite IHs|done|done].
    simpl. rewrite IHc, IHs. split; [|done].
    rewrite <- app_assoc. f_equal.
    change ((deserializeMessage key, e) :: replicate n (deserializeMessage key, e))
      with (replicate (S n) (deserializeMessage key, e)).
    by rewrite replicate_S_end.
Qed.

Lemma corrupt_entry_reported_on_every_read_witness :
  let h' := afterReads (getStorageValue "theme" (Literal "light") JSON_parse) 3
              (hostWith "theme" "{") in
  console h' = [] ++ replicate 3 (deserializeMessage "theme", "SyntaxError") ∧
  localStorage h' = {[ "theme" := "{" ]}.
Proof.
  apply (corrupt_entry_reported_on_every_read "theme" (Literal "light")
           JSON_parse (hostWith "theme" "{") "{" "SyntaxError" 3).
  - apply lookup_singleton_eq.
  - discriminate.
  - reflexivity.
Defined.

(** X20: On the same storage the initializer of the effect-based hook and the
    read of the store-based hook end in the same way: the two hooks differ
    only in what they do to the console and to a corrupt entry. *)
Theorem both_hooks_read_the_same_value {T} key (d : Default T) deserialize h :
  fst (initialState key d deserialize h) = fst (getStorageValue key d deserialize h).
Proof.
  unfold initialState, getStorageValue, mbind, M_bind, getItem; simpl.
  destruct (localStorage h !! key) as [raw|]; simpl.
  - destruct (truthy raw); simpl.
    + unfold try_catch, mbind, M_bind, lift.
      destruct (deserialize raw); simpl; [done|].
      by rewrite !resolve_outcome.
    + by rewrite !resolve_outcome.
  - by rewrite !resolve_outcome.
Qed.

(** X21: The effect of the effect-based hook leaves the encoding of the state
    under the current key; when the key has changed since the last run it
    removes the entry of the previous key; no other entry is touched. *)
Theorem effect_persists_state {T} key (serialize : T → Completion string)
    prevKey state raw h :
  serialize state = Return raw →
  ∃ h', effect key serialize prevKey state h = (Return (), h') ∧
        localStorage h' !! key = Some raw ∧
        (prevKey ≠ key → localStorage h' !! prevKey = None) ∧
        (∀ k, k ≠ key → k ≠ prevKey →
              localStorage h' !! k = localStorage h !! k).
Proof.
  intros Es. unfold effect, mbind, M_bind, mret, M_ret, lift.
  destruct (decide (prevKey ≠ key)) as [Hne|Heq]; simpl; rewrite Es; simpl;
    eexists; (split; [reflexivity|]); simpl.
  - split; [by rewrite lookup_insert_eq|]. split.
    + intros _. rewrite lookup_insert_ne by done. by rewrite lookup_delete_eq.
    + intros k Hk1 Hk2.
      rewrite lookup_insert_ne by done. by rewrite lookup_delete_ne.
  - split; [by rewrite lookup_insert_eq|]. split; [done|].
    intros k Hk1 Hk2. by rewrite lookup_insert_ne.
Qed.

Lemma effect_persists_state_witness :
  ∃ h', effect "mode" JSON_stringify "theme" "dark" (hostWith "theme" "x")
          = (Return (), h') ∧
        localStorage h' !! "mode" = Some (QuoteJSONString "dark") ∧
        ("theme" ≠ "mode" → localStorage h' !! "theme" = None) ∧
        (∀ k, k ≠ "mode" → k ≠ "theme" →
              localStorage h' !! k = localStorage (hostWith "theme" "x") !! k).
Proof.
  apply (effect_persists_state "mode" JSON_stringify "theme" "dark"
           (QuoteJSONString "dark") (hostWith "theme" "x")).
  reflexivity.
Defined.

(** X22: The storage event of [setValue] is not scoped to the key: every
    callback subscribed by any hook, whatever its key, is called. *)
Theorem setValue_notifies_every_subscriber {T} key
    (serialize : T → Completion string) value v raw cb h :
  serialize v = Return raw →
  let h1 := snd (subscribe cb h) in
  let h2 := snd (setValue key serialize value (NewValue v) h1) in
  cb ∈ storageListeners h1 ∧
  dispatched h2 = dispatched h1 ++ storageListeners h1.
Proof.
  intros Es. simpl. rewrite (setValue_new key serialize value v raw) by done.
  simpl. split; [|done].
  case_decide; [done|]. simpl. set_solver.
Qed.

Lemma setValue_notifies_every_subscriber_witness :
  let h1 := snd (subscribe 4 emptyHost) in
  let h2 := snd (setValue "theme" JSON_stringify "light" (NewValue "dark") h1) in
  4 ∈ storageListeners h1 ∧
  dispatched h2 = dispatched h1 ++ storageListeners h1.
Proof.
  apply (setValue_notifies_every_subscriber "theme" JSON_stringify "light"
           "dark" (QuoteJSONString "dark") 4 emptyHost).
  reflexivity.
Defined.

End StorageProperties.

(** * Properties of the intersection observer hook *)

Module ObserverProperties.
Import IntersectionObserver.

Lemma deliver_unobserved k batch :
  Forall (λ e, target e ∉ observed k) batch → deliver k batch = Return k.
Proof.
  intros H. unfold deliver.
  assert (filter (λ e, target e ∈ observed k) batch = []) as ->; [|done].
  induction H as [|e batch He _ IH]; [done|].
  by rewrite filter_cons_False.
Qed.

Lemma deliver_observed k batch :
  ∃ k', deliver k batch = Return k' ∧ observed k' = observed k.
Proof.
  unfold deliver.
  destruct (filter (λ e, target e ∈ observed k) batch) as [|e queued].
  - by exists k.
  - simpl. by eexists.
Qed.

Lemma deliverAll_total batches : ∀ k,
  ∃ k', deliverAll batches k = Return k' ∧ observed k' = observed k.
Proof.
  induction batches as [|b batches IH]; intros k; simpl.
  - by exists k.
  - destruct (deliver_observed k b) as (k1 & -> & E1).
    destruct (IH k1) as (k' & E & E'). exists k'. split; [done|]. congruence.
Qed.

Lemma deliverAll_app b1 b2 k :
  deliverAll (b1 ++ b2) k
  = match deliverAll b1 k with
    | Return k' => deliverAll b2 k'
    | Throw e => Throw e
    end.
Proof.
  revert k. induction b1 as [|b b1 IH]; intros k; simpl; [done|].
  destruct (deliver k b); [apply IH|done].
Qed.

(** X23: The callback takes the first entry of a batch and drops the others:
    after any sequence of reports the hook renders the first entry of the
    last batch about the observed element, also when that batch holds a
    later entry of the same element with the opposite value. *)
Theorem hook_renders_first_entry_of_last_batch batches k e rest :
  target e ∈ observed k →
  deliverAll (batches ++ [e :: rest]) k
  = Return (mkHook (isIntersecting e) (observed k)).
Proof.
  intros H. rewrite deliverAll_app.
  destruct (deliverAll_total batches k) as (k' & -> & E).
  simpl. unfold deliver. rewrite filter_cons_True by (by rewrite E).
  simpl. by rewrite E.
Qed.

Lemma hook_renders_first_entry_of_last_batch_witness :
  deliverAll ([[mkEntry 1 false]] ++ [[mkEntry 1 true; mkEntry 1 false]])
    (effect (Some 1) initialRender)
  = Return (mkHook true [1]).
Proof.
  apply (hook_renders_first_entry_of_last_batch [[mkEntry 1 false]]
           (effect (Some 1) initialRender) (mkEntry 1 true) [mkEntry 1 false]).
  simpl. apply list_elem_of_singleton. reflexivity.
Defined.

(** X24: When the ref holds no element at the time the effect runs, nothing is
    observed: whatever the host reports afterwards, the hook keeps
    rendering what it rendered, [false] from the first render on.  The
    same holds after the cleanup of the effect. *)
Theorem observer_without_target_never_updates batches k :
  deliverAll batches (effect None k) = Return (effect None k) ∧
  deliverAll batches (cleanup k) = Return (cleanup k) ∧
  deliverAll batches (effect None initialRender) = Return (mkHook false []).
Proof.
  assert (∀ k0, observed k0 = [] → deliverAll batches k0 = Return k0) as H.
  { intros k0 E. induction batches as [|b batches IH]; [done|].
    simpl. rewrite deliver_unobserved; [done|].
    rewrite E. apply Forall_forall. intros e _. apply not_elem_of_nil. }
  split; [by apply H|]. split; [by apply H|]. by apply (H (effect None initialRender)).
Qed.

(** X25: The callback would throw on an empty array, but it is never called
    with one: a batch in which nothing concerns an observed element is
    not delivered, so no sequence of reports makes the hook throw, and the
    set of observed elements is not changed by reports. *)
Theorem delivery_never_throws batches : ∀ k,
  callback [] k = Throw "TypeError" ∧
  ∃ k', deliverAll batches k = Return k' ∧ observed k' = observed k.
Proof.
  intros k. split; [done|]. apply deliverAll_total.
Qed.

End ObserverProperties.

(** * Properties of the media query hook *)

Module MediaQueryProperties.
Import MediaQuery.

Lemma registered_app query L1 L2 m n :
  registered query (mkHost (L1 ++ L2) m n)
  = registered query (mkHost L1 m n) ++ registered query (mkHost L2 m n).
Proof.
  unfold registered; simpl. by rewrite filter_app, fmap_app, concat_app.
Qed.

Lemma registered_singleton query q ls m n :
  registered query (mkHost [mkList q ls] m n) = if decide (q = query) then ls else [].
Proof.
  unfold registered; simpl. rewrite filter_cons, filter_nil; simpl.
  case_decide; simpl; [by rewrite app_nil_r|done].
Qed.

Lemma subscribe_lists query cb h :
  subscribe query cb h
  = (length (lists h),
     mkHost (lists h ++ [mkList query [cb]]) (matching h) (notifiedCallbacks h)).
Proof.
  unfold subscribe, matchMedia, addEventListener; simpl. f_equal. f_equal.
  rewrite alter_app_r_alt, Nat.sub_diag by done. done.
Qed.

Lemma unsubscribe_lists L q ls R cb m n :
  unsubscribe (length L) cb (mkHost (L ++ mkList q ls :: R) m n)
  = mkHost (L ++ mkList q (filter (λ c, c ≠ cb) ls) :: R) m n.
Proof.
  unfold unsubscribe, removeEventListener; simpl. f_equal.
  rewrite alter_app_r_alt, Nat.sub_diag by done. done.
Qed.

(** X26: Every subscribe call registers on a list object of its own, so the
    same callback subscribed twice is registered twice, and each
    unsubscribe function removes only the registration of its own call. *)
Theorem each_subscription_has_its_own_list query cb h :
  let '(a1, h1) := subscribe query cb h in
  let '(a2, h2) := subscribe query cb h1 in
  registered query h2 = registered query h ++ [cb; cb] ∧
  registered query (unsubscribe a1 cb h2) = registered query h ++ [cb] ∧
  registered query (unsubscribe a2 cb h2) = registered query h ++ [cb] ∧
  registered query (unsubscribe a2 cb (unsubscribe a1 cb h2)) = registered query h.
Proof.
  rewrite subscribe_lists. rewrite subscribe_lists. simpl lists.
  set (L := lists h). set (m := matching h). set (n := notifiedCallbacks h).
  cbn [matching notifiedCallbacks].
  assert (∀ ls1 ls2,
    registered query (mkHost (L ++ [mkList query ls1; mkList query ls2]) m n)
    = registered query h ++ ls1 ++ ls2) as R.
  { intros ls1 ls2.
    change [mkList query ls1; mkList query ls2]
      with ([mkList query ls1] ++ [mkList query ls2]).
    rewrite !registered_app, !registered_singleton, !decide_True by done.
    done. }
  assert (filter (λ c, c ≠ cb) [cb] = []) as F
    by (by rewrite filter_cons_False, filter_nil by tauto).
  assert (length (L ++ [mkList query [cb]]) = length (L ++ [mkList query []]))
    as Elen by (by rewrite !length_app).
  split; [|split; [|split]].
  - rewrite <- app_assoc. apply R.
  - rewrite <- app_assoc. cbn [app].
    rewrite unsubscribe_lists, F. apply R.
  - rewrite unsubscribe_lists, F, <- app_assoc. cbn [app].
    rewrite R. by rewrite app_nil_r.
  - rewrite <- app_assoc. cbn [app].
    rewrite unsubscribe_lists, F, Elen.
    change (L ++ [mkList query []; mkList query [cb]])
      with (L ++ [mkList query []] ++ [mkList query [cb]]).
    rewrite app_assoc, unsubscribe_lists, F, <- app_assoc. cbn [app].
    rewrite R. by rewrite app_nil_r.
Qed.


(** X27: Reading the snapshot returns whether the query matches at present and
    disturbs no subscription, although every read creates one more list
    object. *)
Theorem getSnapshot_leaves_subscriptions query q h :
  let '(b, h') := getSnapshot query h in
  b = matching h query ∧
  registered q h' = registered q h ∧
  length (lists h') = S (length (lists h)).
Proof.
  unfold getSnapshot, matchMedia; simpl. split; [done|]. split.
  - rewrite registered_app, registered_singleton.
    case_decide; by rewrite app_nil_r.
  - rewrite length_app; simpl. lia.
Qed.


(** X28: A change of the query reaches a subscribed callback and flips the
    snapshot; a change of another query does not reach it through this
    subscription; after the unsubscribe function, neither does a change
    of its own query. *)
Theorem change_reaches_its_subscribers query cb h :
  let '(a, h1) := subscribe query cb h in
  notifiedCallbacks (mediaChange query h1)
    = notifiedCallbacks h ++ registered query h ++ [cb] ∧
  fst (getSnapshot query (mediaChange query h1))
    = negb (fst (getSnapshot query h1)) ∧
  (∀ q, q ≠ query →
        notifiedCallbacks (mediaChange q h1) = notifiedCallbacks (mediaChange q h)) ∧
  notifiedCallbacks (mediaChange query (unsubscribe a cb h1))
    = notifiedCallbacks (mediaChange query h).
Proof.
  rewrite subscribe_lists.
  set (L := lists h). set (m := matching h). set (n := notifiedCallbacks h).
  assert (registered query (mkHost L m n) = registered query h) as E0 by done.
  split; [|split; [|split]].
  - unfold mediaChange; cbn [lists matching notifiedCallbacks].
    rewrite registered_app, registered_singleton, decide_True by done.
    by rewrite E0.
  - unfold getSnapshot, matchMedia, mediaChange; simpl. by rewrite decide_True.
  - intros q Hne. unfold mediaChange; cbn [lists matching notifiedCallbacks].
    rewrite registered_app, registered_singleton, decide_False by done.
    by rewrite app_nil_r.
  - change (L ++ [mkList query [cb]]) with (L ++ mkList query [cb] :: []).
    rewrite unsubscribe_lists. unfold mediaChange; cbn [lists matching notifiedCallbacks].
    rewrite registered_app, registered_singleton, decide_True by done.
    rewrite filter_cons_False, filter_nil by tauto.
    by rewrite app_nil_r.
Qed.


End MediaQueryProperties.
